(** * simple-db: the document table and its inverted property index

    A shallow embedding of [simple_db.py] (class [SimpleDB]), of the
    comparators [eq] and [ne] of [db_queries.py], and of the methods of the
    older class [DB] of [db.py] that differ from it, followed by the
    properties of the store that its description states.

    Python objects are modelled as follows.
    - A property name is a string, an identifier is a string.
    - A value is an integer, a string, a list of integers, or a tuple of
      integers, strings and lists.  The type test that the code runs,
      [isinstance(val, collections.Hashable)] (in the Python versions that
      have this name), is false exactly on lists: a tuple passes it whatever
      it holds.  Hashing a value, which every dict lookup under that value
      does, fails on a list and on a tuple that holds a list.  The two are
      kept apart as [hashable_type] and [hashable].
    - A document is a Python [dict]: an association list with the items in
      iteration order.  Python keeps the keys of a dict pairwise distinct,
      which is the predicate [doc_wf].
    - The store keeps the caller's dict object itself ([self.el_db[id_] = el],
      no copy), so dict objects live in a heap and the document table maps an
      identifier to a reference.  A reference that names no dict of the heap
      stands for an object that is not a mapping.
    - A method runs in a state-and-exception monad: a raised exception keeps
      the mutations done before it.
    - A [set] of identifiers is iterated in an order that the program does
      not choose (it changes with the hash seed of the interpreter): the
      order is [set_iter], of which nothing is known but that it lists the
      elements of the set, and results that depend on it are stated up to
      permutation. *)

From stdpp Require Import gmap strings list fin_maps.

Open Scope string_scope.
Open Scope list_scope.

(** ** Values *)

(** What a tuple holds. *)
Inductive atom :=
  | AInt (n : Z)
  | AStr (s : string)
  | AList (l : list Z).

Inductive value :=
  | VInt (n : Z)
  | VStr (s : string)
  | VList (l : list Z)
  | VTuple (t : list atom).

#[global] Instance atom_eq_dec : EqDecision atom.
Proof. solve_decision. Defined.

#[global] Instance atom_countable : Countable atom.
Proof.
  refine (inj_countable'
    (λ a, match a with
          | AInt n => inl n
          | AStr s => inr (inl s)
          | AList l => inr (inr l)
          end)
    (λ x, match x with
          | inl n => AInt n
          | inr (inl s) => AStr s
          | inr (inr l) => AList l
          end) _).
  by intros [].
Defined.

#[global] Instance value_eq_dec : EqDecision value.
Proof. solve_decision. Defined.

#[global] Instance value_countable : Countable value.
Proof.
  refine (inj_countable'
    (λ v, match v with
          | VInt n => inl n
          | VStr s => inr (inl s)
          | VList l => inr (inr (inl l))
          | VTuple t => inr (inr (inr t))
          end)
    (λ x, match x with
          | inl n => VInt n
          | inr (inl s) => VStr s
          | inr (inr (inl l)) => VList l
          | inr (inr (inr t)) => VTuple t
          end) _).
  by intros [].
Defined.

(** [isinstance(val, collections.Hashable)]: the type of the value defines
    [__hash__].  [int], [str] and [tuple] do, [list] does not. *)
Definition hashable_type (v : value) : bool :=
  match v with
  | VList _ => false
  | _ => true
  end.

Definition atom_hashable (a : atom) : bool :=
  match a with
  | AList _ => false
  | _ => true
  end.

(** [hash(val)] returns: the hash of a tuple hashes what the tuple holds.
    A dict lookup [val in d] or [d[val]] raises [TypeError] otherwise. *)
Definition hashable (v : value) : bool :=
  match v with
  | VInt _ | VStr _ => true
  | VList _ => false
  | VTuple t => forallb atom_hashable t
  end.

Abbreviation prop := string (only parsing).
Abbreviation ident := string (only parsing).
Abbreviation loc := nat (only parsing).

(** A property name is a dict key or a string literal: always hashable. *)
Definition hashable_name (p : prop) : bool := true.

(** The iteration order of a set of identifiers: some listing of the set.
    The definition is opaque, so that nothing below can depend on which
    listing it is. *)
Definition set_iter_exists :
  { iter : gset ident → list ident | ∀ s, iter s ≡ₚ elements s }.
Proof. by exists elements. Qed.

Definition set_iter (s : gset ident) : list ident := proj1_sig set_iter_exists s.

(** ** Documents: Python dicts in iteration order *)

Abbreviation doc := (list (prop * value)) (only parsing).

Definition doc_wf (d : doc) : Prop := NoDup d.*1.

(** [d.get(p)], and [p in d] when the result is [Some]. *)
Fixpoint doc_get (p : prop) (d : doc) : option value :=
  match d with
  | [] => None
  | (q, v) :: r => if decide (q = p) then Some v else doc_get p r
  end.

(** [d[p] = v]: an existing key keeps its place, a new key goes last. *)
Fixpoint doc_set (p : prop) (v : value) (d : doc) : doc :=
  match d with
  | [] => [(p, v)]
  | (q, w) :: r => if decide (q = p) then (p, v) :: r else (q, w) :: doc_set p v r
  end.

(** [del d[p]] for a key that is present. *)
Fixpoint doc_del (p : prop) (d : doc) : doc :=
  match d with
  | [] => []
  | (q, w) :: r => if decide (q = p) then r else (q, w) :: doc_del p r
  end.

(** Truthiness of a dict: [if el:]. *)
Definition truthy (d : doc) : bool :=
  match d with
  | [] => false
  | _ => true
  end.

(** ** The store *)

Record state := State {
  heap : gmap loc doc;
  el_db : gmap ident loc;
  prop_db : gmap prop (gmap value (gset ident));
  fname : option string
}.

Definition set_heap (h : gmap loc doc) (st : state) : state :=
  State h (el_db st) (prop_db st) (fname st).
Definition set_el_db (e : gmap ident loc) (st : state) : state :=
  State (heap st) e (prop_db st) (fname st).
Definition set_prop_db (i : gmap prop (gmap value (gset ident))) (st : state) : state :=
  State (heap st) (el_db st) i (fname st).
Definition set_fname (f : option string) (st : state) : state :=
  State (heap st) (el_db st) (prop_db st) f.

(** [SimpleDB()] in a program whose dict objects are [h]. *)
Definition init (h : gmap loc doc) : state := State h ∅ ∅ None.

(** The document an identifier names, if any. *)
Definition stored (st : state) (id_ : ident) : option doc :=
  l ← el_db st !! id_; heap st !! l.

(** ** Exceptions and the method monad *)

Inductive exn :=
  | LookupError
  | KeyError
  | TypeError
  | AttributeError
  | NameError
  | IOError
  | UnpicklingError.

Inductive outcome (A : Type) :=
  | Ret (a : A)
  | Raise (e : exn).
Arguments Ret {A} a.
Arguments Raise {A} e.

Definition M (A : Type) : Type := state → outcome A * state.

Definition ret {A} (a : A) : M A := λ st, (Ret a, st).
Definition raise {A} (e : exn) : M A := λ st, (Raise e, st).
Definition bind {A B} (m : M A) (k : A → M B) : M B :=
  λ st, match m st with
        | (Ret a, st') => k a st'
        | (Raise e, st') => (Raise e, st')
        end.
Definition get_state : M state := λ st, (Ret st, st).
Definition modify (f : state → state) : M unit := λ st, (Ret tt, f st).

Notation "x ←← m ;; k" := (bind m (λ x, k))
  (at level 100, m at next level, right associativity).
Notation "m ;;; k" := (bind m (λ _, k))
  (at level 100, right associativity).

(** [for x in xs: body(x)] *)
Fixpoint for_each {A} (body : A → M unit) (xs : list A) : M unit :=
  match xs with
  | [] => ret tt
  | x :: r => body x ;;; for_each body r
  end.

(** Run a computation that does not touch the store. *)
Definition lift {A} (o : outcome A) : M A := λ st, (o, st).

(** ** db_queries.py: the comparators bound to the store

    A test function is called as [test(_val, val)] and may raise. *)

Definition test_fn := value → value → outcome bool.

Module db_queries.

Definition eq : test_fn := λ _val val, Ret (bool_decide (_val = val)).
Definition ne : test_fn := λ _val val, Ret (negb (bool_decide (_val = val))).

End db_queries.

(** ** simple_db.py: class SimpleDB *)

Module SimpleDB.

(** [self.el_db.get(id_).copy()]: [get] gives [None] for an identifier that
    is not in the table, and neither [None] nor an object that is not a dict
    has a [copy] attribute.  The copy is a new dict, returned by value. *)
Definition get_copy (id_ : ident) : M doc :=
  λ st, match el_db st !! id_ with
        | None => (Raise AttributeError, st)
        | Some l =>
            match heap st !! l with
            | None => (Raise AttributeError, st)
            | Some d => (Ret d, st)
            end
        end.

(** The loop of [access], with [res] the list built so far. *)
Fixpoint access_from (res : list doc) (id_iter : list ident) : M (list doc) :=
  match id_iter with
  | [] => ret res
  | id_ :: r =>
      el ←← get_copy id_ ;;
      access_from (if truthy el then res ++ [el] else res) r
  end.

Definition access (id_iter : list ident) : M (list doc) := access_from [] id_iter.

(** [if prop not in self.prop_db: self.prop_db[prop] = {}] *)
Definition ensure_map (p : prop)
    (idx : gmap prop (gmap value (gset ident))) : gmap prop (gmap value (gset ident)) :=
  match idx !! p with None => <[p := ∅]> idx | Some _ => idx end.

(** The last three statements of [set_prop] for a value that can be hashed:
    they file [id_] under [self.prop_db[prop][val]] and create the map and
    the set on the way. *)
Definition index_add (p : prop) (val : value) (id_ : ident)
    (idx : gmap prop (gmap value (gset ident))) : gmap prop (gmap value (gset ident)) :=
  let idx1 := match idx !! p with None => <[p := ∅]> idx | Some _ => idx end in
  let pm := default ∅ (idx1 !! p) in
  let pm1 := match pm !! val with None => <[val := ∅]> pm | Some _ => pm end in
  let ids := default ∅ (pm1 !! val) in
  <[p := <[val := ids ∪ {[id_]}]> pm1]> idx1.

(** [set_prop(id_, prop, val, exclude)].  The type test comes before the
    exclusion flag is looked at; item assignment on an object that is not a
    mapping raises [TypeError].  With the flag unset the property map is
    created when the index has none, and then [val not in
    self.prop_db[prop]] hashes the value: for a value that passed the type
    test and cannot be hashed this raises [TypeError], after the document
    was written and the map created. *)
Definition set_prop (id_ : ident) (p : prop) (val : value) (exclude : bool) : M unit :=
  λ st, match el_db st !! id_ with
        | None => (Raise LookupError, st)
        | Some l =>
            if negb (hashable_name p && hashable_type val) then (Raise TypeError, st)
            else match heap st !! l with
                 | None => (Raise TypeError, st)
                 | Some d =>
                     let st1 := set_heap (<[l := doc_set p val d]> (heap st)) st in
                     if exclude then (Ret tt, st1)
                     else if hashable val
                     then (Ret tt, set_prop_db (index_add p val id_ (prop_db st1)) st1)
                     else (Raise TypeError, set_prop_db (ensure_map p (prop_db st1)) st1)
                 end
        end.

(** The validity flag of [add]: each item overwrites it, so the loop leaves
    the verdict on the last item ([True] for an empty document). *)
Definition add_valid (d : doc) : bool :=
  fold_left (λ _ '(p, val), hashable_name p && hashable_type val) d true.

(** [add(el, exclude, id_)], with [id_] the identifier passed by the caller
    or the one [str(uuid.uuid4())] produced. *)
Definition add (el : loc) (exclude : list prop) (id_ : ident) : M ident :=
  λ st, match heap st !! el with
        | None => (Raise AttributeError, st)
        | Some d =>
            if negb (add_valid d) then (Raise TypeError, st)
            else
              (modify (set_el_db (<[id_ := el]> (el_db st))) ;;;
               for_each (λ '(p, val), set_prop id_ p val (bool_decide (p ∈ exclude))) d ;;;
               ret id_) st
        end.

(** Result of a query: the identifiers, or the documents when [access] is set. *)
Inductive qres :=
  | Ids (s : gset ident)
  | Docs (l : list doc).

(** [res = matches], or [self.access(matches)], which iterates the set. *)
Definition resolve (access_flag : bool) (matches : gset ident) : M qres :=
  if access_flag then (l ←← access (set_iter matches) ;; ret (Docs l))
  else ret (Ids matches).

(** The loop of [query] over [prop_db.keys()]. *)
Fixpoint query_scan (test : test_fn) (val : value)
    (kvs : list (value * gset ident)) (matches : gset ident) : outcome (gset ident) :=
  match kvs with
  | [] => Ret matches
  | (_val, ids) :: r =>
      match test _val val with
      | Raise e => Raise e
      | Ret b => query_scan test val r (if b then matches ∪ ids else matches)
      end
  end.

Definition query (p : prop) (test : test_fn) (val : value) (access_flag : bool) : M qres :=
  st ←← get_state ;;
  matches ←← lift (match prop_db st !! p with
                   | None => Ret ∅
                   | Some pm => query_scan test val (map_to_list pm) ∅
                   end) ;;
  resolve access_flag matches.

(** [matches.update(it)] for an iterable [it] whose elements are themselves
    sets: [update] adds each element of [it] to [matches], which hashes it,
    and a [set] is unhashable. *)
Definition update_with_sets (matches : gset ident) (it : list (gset ident)) : outcome (gset ident) :=
  match it with
  | [] => Ret matches
  | _ :: _ => Raise TypeError
  end.

Definition query_prop (p : prop) (access_flag : bool) : M qres :=
  st ←← get_state ;;
  matches ←← lift (match prop_db st !! p with
                   | None => Ret ∅
                   | Some pm => update_with_sets ∅ (map_to_list pm).*2
                   end) ;;
  resolve access_flag matches.

(** [self.del_prop]: the class defines no attribute of that name. *)
Definition del_prop (id_ : ident) (item : prop * value) : M unit := raise AttributeError.

(** [remove(id_)]: the loop calls [self.del_prop] on every item of the
    document, then the document is deleted from the table. *)
Definition remove (id_ : ident) : M unit :=
  λ st, match el_db st !! id_ with
        | Some l =>
            match heap st !! l with
            | None => (Raise AttributeError, st)
            | Some d =>
                (for_each (del_prop id_) d ;;;
                 modify (λ st', set_el_db (delete id_ (el_db st')) st')) st
            end
        | None => (Raise LookupError, st)
        end.

Definition replace (id_ : ident) (el : loc) (exclude : list prop) : M unit :=
  remove id_ ;;; add el exclude id_ ;;; ret tt.

(** The body of [remove_prop] under [if id_ in self.query_prop(prop)]: it
    reads [self.el_db[id_][prop]], discards [id_] from the set filed under
    that value and prunes what has become empty. *)
Definition unindex (id_ : ident) (p : prop) : M unit :=
  λ st, match stored st id_ ≫= doc_get p with
        | None => (Raise KeyError, st)
        | Some val =>
            match prop_db st !! p with
            | None => (Raise KeyError, st)
            | Some prop_dict =>
                if negb (hashable val) then (Raise TypeError, st)
                else
                match prop_dict !! val with
                | None => (Raise KeyError, st)
                | Some ids =>
                    let ids1 := ids ∖ {[id_]} in
                    let prop_dict1 :=
                      if decide (size ids1 = 0) then delete val prop_dict
                      else <[val := ids1]> prop_dict in
                    let idx1 := <[p := prop_dict1]> (prop_db st) in
                    let idx2 :=
                      if decide (size prop_dict1 = 0) then delete p idx1 else idx1 in
                    (Ret tt, set_prop_db idx2 st)
                end
            end
        end.

(** [remove_prop(id_, prop)]: the property is deleted from the document
    first, [query_prop] is asked afterwards. *)
Definition remove_prop (id_ : ident) (p : prop) : M unit :=
  λ st, match el_db st !! id_ with
        | None => (Raise LookupError, st)
        | Some l =>
            match heap st !! l with
            | None => (Raise TypeError, st)
            | Some d =>
                match doc_get p d with
                | None => (Raise KeyError, st)
                | Some _ =>
                    (modify (set_heap (<[l := doc_del p d]> (heap st))) ;;;
                     r ←← query_prop p false ;;
                     match r with
                     | Ids matches => if decide (id_ ∈ matches) then unindex id_ p else ret tt
                     | Docs _ => ret tt
                     end) st
                end
            end
        end.

Definition reset : M unit :=
  modify (λ st, set_prop_db ∅ (set_el_db ∅ st)).

(** What [pickle.load(open(fname, "rb"))] yields: [open] fails, the stream
    is no pickle, the object that comes back is no mapping, or a dict comes
    back that may hold the keys ["el_db"] and ["prop_db"], together with the
    dict objects that unpickling created. *)
Inductive unpickled :=
  | OpenFails
  | BadStream
  | NotMapping
  | Blob (objs : gmap loc doc)
         (b_el_db : option (gmap ident loc))
         (b_prop_db : option (gmap prop (gmap value (gset ident)))).

(** [load(fname)]: three assignments in a row; the [except] clauses raise
    anew and restore nothing. *)
Definition load (file : string) (content : unpickled) : M unit :=
  match content with
  | OpenFails => raise IOError
  | BadStream => raise UnpicklingError
  | NotMapping => raise TypeError
  | Blob objs b_el_db b_prop_db =>
      modify (λ st, set_heap (heap st ∪ objs) st) ;;;
      match b_el_db with
      | None => raise KeyError
      | Some e =>
          modify (set_el_db e) ;;;
          match b_prop_db with
          | None => raise KeyError
          | Some i =>
              modify (set_prop_db i) ;;;
              modify (set_fname (Some file))
          end
      end
  end.

(** [save] starts with [args.get(1)] on its argument tuple, and a tuple has
    no [get]. *)
Definition save (args : list string) : M unit := raise AttributeError.

(** [len(self.el_db.keys())] *)
Definition size : M nat := λ st, (Ret (base.size (el_db st)), st).

End SimpleDB.

(** ** db.py: class DB, the earlier version of the store *)

Module DB.

(** The text of [access], [query] and [query_prop] is the one of [SimpleDB];
    [add], [remove] and [open] differ. *)

(** The first loop of [add]: excluded properties are skipped, and the first
    indexed item that fails the type test raises. *)
Fixpoint add_check (exclude : list prop) (items : doc) : outcome unit :=
  match items with
  | [] => Ret tt
  | (p, val) :: r =>
      if bool_decide (p ∈ exclude) then add_check exclude r
      else if negb (hashable_name p && hashable_type val) then Raise TypeError
      else add_check exclude r
  end.

(** One round of the second loop of [add].  The property map is created
    when the index has none; [val in prop_db] then hashes the value and
    raises [TypeError] when that fails. *)
Definition add_item (exclude : list prop) (_id : ident) (item : prop * value) : M unit :=
  let '(p, val) := item in
  if bool_decide (p ∈ exclude) then ret tt
  else
    λ st,
      let idx1 := SimpleDB.ensure_map p (prop_db st) in
      if negb (hashable val) then (Raise TypeError, set_prop_db idx1 st)
      else
        let prop_db_p := default ∅ (idx1 !! p) in
        let prop_db_p1 :=
          match prop_db_p !! val with
          | Some ids => <[val := ids ∪ {[_id]}]> prop_db_p
          | None => <[val := {[_id]}]> prop_db_p
          end in
        (Ret tt, set_prop_db (<[p := prop_db_p1]> idx1) st).

(** [add(el, exclude)], with [_id] the string [str(uuid.uuid4())] produced. *)
Definition add (el : loc) (exclude : list prop) (_id : ident) : M ident :=
  λ st, match heap st !! el with
        | None => (Raise AttributeError, st)
        | Some d =>
            match add_check exclude d with
            | Raise e => (Raise e, st)
            | Ret _ =>
                (modify (set_el_db (<[_id := el]> (el_db st))) ;;;
                 for_each (add_item exclude _id) d ;;;
                 ret _id) st
            end
        end.

(** One round of the loop of [remove].  The last statement of the round
    names [slef], which is bound nowhere. *)
Definition remove_item (_id : ident) (item : prop * value) : M unit :=
  let '(p, val) := item in
  λ st, match prop_db st !! p with
        | None => (Raise KeyError, st)
        | Some prop_db_p =>
            if negb (hashable val) then (Raise TypeError, st)
            else match prop_db_p !! val with
                 | None => (Raise KeyError, st)
                 | Some ids =>
                     if decide (_id ∈ ids) then
                       let ids1 := ids ∖ {[_id]} in
                       let prop_db_p1 :=
                         if decide (size ids1 = 0) then delete val prop_db_p
                         else <[val := ids1]> prop_db_p in
                       let st1 := set_prop_db (<[p := prop_db_p1]> (prop_db st)) st in
                       if decide (size prop_db_p1 = 0) then (Raise NameError, st1)
                       else (Ret tt, st1)
                     else (Raise KeyError, st)
                 end
        end.

(** [remove(_id)] *)
Definition remove (_id : ident) : M unit :=
  λ st, match el_db st !! _id with
        | Some l =>
            match heap st !! l with
            | None => (Raise AttributeError, st)
            | Some d =>
                (for_each (remove_item _id) d ;;;
                 modify (λ st', set_el_db (delete _id (el_db st')) st')) st
            end
        | None => (Raise LookupError, st)
        end.

(** [open(fname)]: the bare [except:] turns every failure into [IOError]. *)
Definition open (content : SimpleDB.unpickled) : M unit :=
  match content with
  | SimpleDB.Blob objs b_el_db b_prop_db =>
      modify (λ st, set_heap (heap st ∪ objs) st) ;;;
      match b_el_db with
      | None => raise IOError
      | Some e =>
          modify (set_el_db e) ;;;
          match b_prop_db with
          | None => raise IOError
          | Some i => modify (set_prop_db i)
          end
      end
  | _ => raise IOError
  end.

End DB.

(** ** Sequences of calls *)

Inductive op :=
  | Add (el : loc) (exclude : list prop) (id_ : ident)
  | Remove (id_ : ident)
  | SetProp (id_ : ident) (p : prop) (val : value) (exclude : bool)
  | RemoveProp (id_ : ident) (p : prop).

Definition exec (o : op) : M unit :=
  match o with
  | Add el exclude id_ => SimpleDB.add el exclude id_ ;;; ret tt
  | Remove id_ => SimpleDB.remove id_
  | SetProp id_ p val exclude => SimpleDB.set_prop id_ p val exclude
  | RemoveProp id_ p => SimpleDB.remove_prop id_ p
  end.

(** The store after a sequence of calls, each one in its own [try]: a call
    that raises leaves what it had done and the next call goes on. *)
Definition run (ops : list op) (st : state) : state :=
  foldl (λ st' o, (exec o st').2) st ops.

(** The sequence of calls as one block: the first exception ends it. *)
Definition run_block (ops : list op) : M unit := for_each exec ops.

(** A store built by calls of [add] alone: the document, the excluded
    properties and the identifier of each call. *)
Definition add_calls (calls : list (loc * list prop * ident)) : list op :=
  (λ '(el, exclude, id_), Add el exclude id_) <$> calls.

(** ** The consistency of the index with the table *)

(** [idx[p][v]], the empty set when the index has no such entry. *)
Definition ids_at (idx : gmap prop (gmap value (gset ident))) (p : prop) (v : value) : gset ident :=
  default ∅ (idx !! p ≫= (.!! v)).

Definition filed (st : state) (p : prop) (v : value) : gset ident :=
  ids_at (prop_db st) p v.

(** Every identifier filed under [(p, v)] names a document that has [p]
    with value [v]. *)
Definition index_sound (st : state) : Prop :=
  ∀ p v id_, id_ ∈ filed st p v →
    ∃ d, stored st id_ = Some d ∧ doc_get p d = Some v.

(** Every property of a stored document is filed under its value, unless
    the pair (identifier, property) is in [ex], the excluded ones. *)
Definition index_complete (ex : gset (ident * prop)) (st : state) : Prop :=
  ∀ id_ d p v, stored st id_ = Some d → doc_get p d = Some v →
    (id_, p) ∉ ex → id_ ∈ filed st p v.

(** The index holds no empty property map and no empty set of identifiers. *)
Definition no_empty_index (idx : gmap prop (gmap value (gset ident))) : Prop :=
  ∀ p pm, idx !! p = Some pm →
    pm ≠ ∅ ∧ ∀ v ids, pm !! v = Some ids → ids ≠ ∅.

Definition no_empty (st : state) : Prop := no_empty_index (prop_db st).

(** The dict objects of the heap have pairwise distinct keys. *)
Definition heap_wf (h : gmap loc doc) : Prop :=
  ∀ l d, h !! l = Some d → doc_wf d.

#[global] Instance heap_wf_dec (h : gmap loc doc) : Decision (heap_wf h).
Proof. apply map_Forall_dec. intros l d. apply NoDup_dec. Defined.

(** The exclusion flag is an argument of a call and the store keeps no trace
    of it.  [ex] holds the pairs (identifier, property) whose last assignment
    had the flag set; [add] assigns every property of its document. *)
Definition excl_add (exclude : list prop) (id_ : ident) (ex : gset (ident * prop)) : gset (ident * prop) :=
  filter (λ ip, ip.1 ≠ id_) ex ∪ set_map (λ p : prop, (id_, p)) (list_to_set exclude : gset prop).

Definition excl_set_prop (id_ : ident) (p : prop) (exclude : bool) (ex : gset (ident * prop)) : gset (ident * prop) :=
  if exclude then ex ∪ {[(id_, p)]} else ex ∖ {[(id_, p)]}.

Fixpoint excluded (ops : list op) (ex : gset (ident * prop)) : gset (ident * prop) :=
  match ops with
  | [] => ex
  | Add el exclude id_ :: r => excluded r (excl_add exclude id_ ex)
  | SetProp id_ p _ exclude :: r => excluded r (excl_set_prop id_ p exclude ex)
  | _ :: r => excluded r ex
  end.

(** A store is consistent when its dict objects are in order and the three
    parts hold: sound, complete up to [ex], nothing empty. *)
Definition consistent (ex : gset (ident * prop)) (st : state) : Prop :=
  heap_wf (heap st) ∧ index_sound st ∧ index_complete ex st ∧ no_empty st.

(** A call that creates rather than overwrites: [add] under an identifier
    the table does not hold, [set_prop] of a property the document does not
    have, on a dict object stored under that identifier alone. *)
Definition creates (st : state) (o : op) : Prop :=
  match o with
  | Add _ _ id_ => el_db st !! id_ = None
  | SetProp id_ p _ _ =>
      stored st id_ ≫= doc_get p = None ∧
      ∀ j, el_db st !! j = el_db st !! id_ → j = id_
  | _ => True
  end.

(** Every call of the sequence returns normally and creates. *)
Fixpoint orderly (ops : list op) (st : state) : Prop :=
  match ops with
  | [] => True
  | o :: r => creates st o ∧ (exec o st).1 = Ret tt ∧ orderly r (exec o st).2
  end.

(** The index after the loop of [add] over the items [its]. *)
Definition index_items (exclude : list prop) (id_ : ident) (its : doc)
    (idx : gmap prop (gmap value (gset ident))) : gmap prop (gmap value (gset ident)) :=
  foldl (λ acc '(p, val),
           if bool_decide (p ∈ exclude) then acc
           else SimpleDB.index_add p val id_ acc) idx its.

(** The store after a call of [add] that returns, for a document [d]. *)
Definition added (st : state) (el : loc) (exclude : list prop) (id_ : ident) (d : doc) : state :=
  State (heap st) (<[id_ := el]> (el_db st))
        (index_items exclude id_ d (prop_db st)) (fname st).

(** An item that a round of the loop of [SimpleDB.add] gets past: its
    value passes the type test, and can be hashed unless the property is
    excluded from the index. *)
Definition item_passes (exclude : list prop) (it : prop * value) : bool :=
  hashable_type it.2 && (bool_decide (it.1 ∈ exclude) || hashable it.2).

(** ** Statements that the calls are checked against *)

(** [load] leaves the table and the index as they were whenever it raises. *)
Definition load_atomic (file : string) (content : SimpleDB.unpickled) (st : state) : Prop :=
  ∀ e st', SimpleDB.load file content st = (Raise e, st') →
    el_db st' = el_db st ∧ prop_db st' = prop_db st.

(** No document but the one of [id_] differs between [st] and [st']. *)
Definition others_untouched (id_ : ident) (st st' : state) : Prop :=
  ∀ j, j ≠ id_ → stored st' j = stored st j.

(** ** Sample stores *)

Definition doc_a1 : doc := [("a", VInt 1)].
Definition heap0 : gmap loc doc := {[ 0 := doc_a1 ]}.

(** One document [{"a": 1}], added as ["i"]. *)
Definition st_a1 : state := (SimpleDB.add 0 [] "i" (init heap0)).2.

(** The same dict object added twice, as ["i"] and as ["j"]. *)
Definition st_alias : state := run [Add 0 [] "i"; Add 0 [] "j"] (init heap0).

(** [{"secret": [1, 2, 3]}] *)
Definition heap_secret : gmap loc doc := {[ 0 := [("secret", VList [1; 2; 3]%Z)] ]}.

(** [{"a": [1], "b": 1}] *)
Definition heap_mixed : gmap loc doc := {[ 0 := [("a", VList [1]%Z); ("b", VInt 1)] ]}.

(** [{"name": "a", "age": 30}], [{"name": "b", "age": 30}] and [{}]. *)
Definition heap_people : gmap loc doc :=
  {[ 0 := [("name", VStr "a"); ("age", VInt 30)];
     1 := [("name", VStr "b"); ("age", VInt 30)];
     2 := [] ]}.

(** [add({"a": 1})] as ["i"] and [add({})] as ["e"]. *)
Definition st_empty_doc : state :=
  run [Add 0 [] "i"; Add 1 [] "e"] (init {[ 0 := doc_a1; 1 := [] ]}).

(** Two calls of [add] on the first two documents, the second one with
    ["name"] excluded, and the store they build. *)
Definition people_calls : list (loc * list prop * ident) :=
  [(0, [], "i1"); (1, ["name"], "i2")].

Definition st_people : state :=
  State heap_people {[ "i1" := 0; "i2" := 1 ]}
        {[ "name" := {[ VStr "a" := {[ "i1" ]} ]};
           "age" := {[ VInt 30 := {[ "i1"; "i2" ]} ]} ]} None.

(** Two calls of [add] under one identifier, the second one with the empty
    document, and the store they build. *)
Definition reused_calls : list (loc * list prop * ident) :=
  [(0, [], "i"); (2, [], "i")].

Definition st_reused : state :=
  State heap_people {[ "i" := 2 ]}
        {[ "name" := {[ VStr "a" := {[ "i" ]} ]};
           "age" := {[ VInt 30 := {[ "i" ]} ]} ]} None.

(** [(1, [2])]: a tuple, which passes the type test, that holds a list. *)
Definition tuple_with_list : value := VTuple [AInt 1; AList [2%Z]].

(** A sequence of calls that all return: a document with an excluded
    property, a new property, an empty document added and removed, and the
    excluded property removed. *)
Definition creating_calls : list op :=
  [Add 0 ["name"] "i"; SetProp "i" "city" (VStr "x") false;
   Add 2 [] "e"; Remove "e"; RemoveProp "i" "name"].


(** ** Helpers for the further properties *)

(** Every value of the document is hashable. *)
Definition all_hashable (its : doc) : bool := forallb (λ it, hashable it.2) its.

(** A caller's test function that raises on integers, like [len(_val) > 0]. *)
Definition has_length : test_fn :=
  λ _val val, match _val with
              | VInt _ => Raise TypeError
              | VStr s => Ret (bool_decide (s ≠ ""))
              | VList l => Ret (bool_decide (l ≠ []))
              | VTuple t => Ret (bool_decide (t ≠ []))
              end.

(** A store whose index has gone stale: [{"a": 1}] added as ["i"], then
    ["a"] overwritten. *)
Definition st_stale : state :=
  run [Add 0 [] "i"; SetProp "i" "a" (VInt 2) false] (init heap0).

(** The check of [DB.add] as a verdict: every item is excluded or has a
    value that passes the type test. *)
Definition type_checked (exclude : list prop) (its : doc) : bool :=
  forallb (λ it, bool_decide (it.1 ∈ exclude) || hashable_type it.2) its.

(** [{"a": 1, "t": (1, [2])}] *)
Definition heap_tuple : gmap loc doc :=
  {[ 0 := [("a", VInt 1); ("t", tuple_with_list)] ]}.

(** A sequence of calls of [DB.add], each one in its own [try]. *)
Definition DB_run_adds (calls : list (loc * list prop * ident)) (st : state) : state :=
  foldl (λ st' '(el, exclude, _id), (DB.add el exclude _id st').2) st calls.

(** The first two documents added through [DB.add] with nothing excluded. *)
Definition st_both : state :=
  DB_run_adds [(0, [], "i1"); (1, [], "i2")] (init heap_people).

(** * Properties *)

Example st_a1_value :
  SimpleDB.add 0 [] "i" (init heap0) =
  (Ret "i", State heap0 {[ "i" := 0 ]} {[ "a" := {[ VInt 1 := {[ "i" ]} ]} ]} None).
Proof. vm_compute. reflexivity. Qed.

(** ** Documents *)

Section documents.
Implicit Types (d : doc) (p q : prop) (v w : value).

Lemma doc_get_elem d p v : doc_get p d = Some v → (p, v) ∈ d.
Proof.
  induction d as [|[q w] r IH]; csimpl; [done|].
  case_decide; intros Hg; simplify_eq.
  - left.
  - right. by apply IH.
Qed.

Lemma doc_get_None d p : doc_get p d = None ↔ p ∉ d.*1.
Proof.
  induction d as [|[q w] r IH]; csimpl.
  - split; [intros _; apply not_elem_of_nil | done].
  - rewrite not_elem_of_cons. case_decide as Hq; subst.
    + split; [done | intros [? _]; done].
    + rewrite IH. split; [by intros ?; split; [congruence|] | by intros [_ ?]].
Qed.

Lemma doc_get_of_elem d p v : doc_wf d → (p, v) ∈ d → doc_get p d = Some v.
Proof.
  unfold doc_wf. induction d as [|[q w] r IH]; csimpl.
  - intros _ H. by apply elem_of_nil in H.
  - rewrite NoDup_cons. intros [Hq Hr] [H|H]%elem_of_cons.
    + simplify_eq. by rewrite decide_True.
    + rewrite decide_False; [by apply IH|].
      intros ->. apply Hq. apply list_elem_of_fmap. by exists (p, v).
Qed.

Lemma doc_set_same d p v : doc_get p d = Some v → doc_set p v d = d.
Proof.
  induction d as [|[q w] r IH]; csimpl; [done|].
  case_decide; intros Hg; simplify_eq; [done|]. by rewrite IH.
Qed.

Lemma doc_get_set d p q v :
  doc_get q (doc_set p v d) = if decide (p = q) then Some v else doc_get q d.
Proof.
  induction d as [|[r w] d IH]; csimpl.
  - repeat case_decide; by simplify_eq.
  - destruct (decide (r = p)) as [->|Hrp]; csimpl.
    + by destruct (decide (p = q)) as [->|Hpq].
    + rewrite IH. destruct (decide (r = q)) as [->|Hrq]; [|done].
      by rewrite decide_False.
Qed.

Lemma doc_set_keys d p v :
  (doc_set p v d).*1 = if decide (p ∈ d.*1) then d.*1 else d.*1 ++ [p].
Proof.
  induction d as [|[r w] d IH]; csimpl.
  - by destruct (decide (p ∈ [])) as [Hin%elem_of_nil|].
  - destruct (decide (r = p)) as [->|Hne]; csimpl.
    + destruct (decide (p ∈ p :: d.*1)) as [|Hn]; [done|].
      exfalso. apply Hn. left.
    + rewrite IH. destruct (decide (p ∈ d.*1)) as [Hin|Hin].
      * destruct (decide (p ∈ r :: d.*1)) as [|Hn]; [done|].
        exfalso. apply Hn. by right.
      * destruct (decide (p ∈ r :: d.*1)) as [[?|?]%elem_of_cons|Hn]; done.
Qed.

Lemma doc_wf_set d p v : doc_wf d → doc_wf (doc_set p v d).
Proof.
  unfold doc_wf. intros H. rewrite doc_set_keys. case_decide; [done|].
  apply NoDup_app. split_and!; [done | | apply NoDup_singleton].
  intros x Hx ->%list_elem_of_singleton. done.
Qed.

Lemma doc_del_keys_subseteq d p : (doc_del p d).*1 ⊆ d.*1.
Proof.
  induction d as [|[r w] d IH]; csimpl; [done|].
  case_decide; csimpl.
  - intros x Hx. by right.
  - intros x [->|Hx]%elem_of_cons; [left | right; by apply IH].
Qed.

Lemma doc_wf_del d p : doc_wf d → doc_wf (doc_del p d).
Proof.
  unfold doc_wf. induction d as [|[r w] d IH]; csimpl; [done|].
  rewrite NoDup_cons. intros [Hr Hd]. case_decide; [done|].
  csimpl. apply NoDup_cons. split; [|by apply IH].
  intros Hin. apply Hr. by apply (doc_del_keys_subseteq d p).
Qed.

Lemma doc_get_del_ne d p q : p ≠ q → doc_get q (doc_del p d) = doc_get q d.
Proof.
  intros Hne. induction d as [|[r w] d IH]; csimpl; [done|].
  repeat (case_decide; csimpl; simplify_eq); done.
Qed.

Lemma doc_get_del_eq d p : doc_wf d → doc_get p (doc_del p d) = None.
Proof.
  unfold doc_wf. induction d as [|[r w] d IH]; csimpl; [done|].
  rewrite NoDup_cons. intros [Hr Hd]. case_decide; subst.
  - by apply doc_get_None.
  - csimpl. rewrite decide_False by done. by apply IH.
Qed.
End documents.

(** ** The index *)

Section index.
Implicit Types (idx : gmap prop (gmap value (gset ident))).
Implicit Types (p q : prop) (v w : value) (i j : ident).

Lemma index_add_insert idx p v i :
  SimpleDB.index_add p v i idx =
  <[p := <[v := ids_at idx p v ∪ {[i]}]> (default ∅ (idx !! p))]> idx.
Proof.
  unfold SimpleDB.index_add, ids_at.
  destruct (idx !! p) as [pm|] eqn:Hp; simpl.
  - rewrite Hp. simpl. destruct (pm !! v) as [ids|] eqn:Hv; simpl.
    + by rewrite Hv.
    + by rewrite lookup_insert_eq, insert_insert_eq.
  - rewrite lookup_insert_eq. simpl. rewrite lookup_empty.
    by rewrite lookup_insert_eq, !insert_insert_eq.
Qed.

Lemma ids_at_insert idx p pm q w :
  ids_at (<[p := pm]> idx) q w =
  if decide (p = q) then default ∅ (pm !! w) else ids_at idx q w.
Proof.
  unfold ids_at. rewrite lookup_insert. by case_decide.
Qed.

Lemma ids_at_index_add idx p v i q w :
  ids_at (SimpleDB.index_add p v i idx) q w =
  if decide (p = q ∧ v = w) then ids_at idx p v ∪ {[i]} else ids_at idx q w.
Proof.
  rewrite index_add_insert, ids_at_insert.
  destruct (decide (p = q)) as [->|Hpq].
  - rewrite lookup_insert. destruct (decide (v = w)) as [->|Hvw].
    + by rewrite decide_True.
    + rewrite decide_False by (by intros [_ ?]).
      unfold ids_at. by destruct (idx !! q).
  - by rewrite decide_False by (by intros [? _]).
Qed.

Lemma elem_of_ids_at idx p v i :
  i ∈ ids_at idx p v ↔
  ∃ pm ids, idx !! p = Some pm ∧ pm !! v = Some ids ∧ i ∈ ids.
Proof.
  unfold ids_at. split.
  - destruct (idx !! p) as [pm|]; simpl; [|by intros ?%not_elem_of_empty].
    destruct (pm !! v) as [ids|] eqn:Hv; simpl; [|by intros ?%not_elem_of_empty].
    intros Hi. by exists pm, ids.
  - intros (pm & ids & -> & Hv & Hi). simpl. by rewrite Hv.
Qed.

Lemma no_empty_index_add idx p v i :
  no_empty_index idx → no_empty_index (SimpleDB.index_add p v i idx).
Proof.
  intros Hne q pm. rewrite index_add_insert, lookup_insert.
  case_decide as Hpq; [subst q | by apply Hne].
  intros [= <-]. split.
  - apply insert_non_empty.
  - intros w ids. rewrite lookup_insert. case_decide as Hvw.
    + intros [= <-]. set_solver.
    + destruct (idx !! p) as [pm|] eqn:Hp; simpl.
      * by apply (Hne p pm).
      * by rewrite lookup_empty.
Qed.

Lemma no_empty_index_items exclude (i : ident) its idx :
  no_empty_index idx → no_empty_index (index_items exclude i its idx).
Proof.
  revert idx. induction its as [|[p v] its IH]; intros idx Hne; [done|].
  unfold index_items in *. simpl. apply IH.
  case_bool_decide; [done | by apply no_empty_index_add].
Qed.
End index.

(** ** set_prop and the loop of add *)

Section set_prop.
Implicit Types (st : state) (p q : prop) (v w val : value) (i j : ident).
Implicit Types (exclude : list prop).

Lemma hashable_type_of v : hashable v = true → hashable_type v = true.
Proof. by destruct v. Qed.

Lemma item_passes_spec exclude p v :
  item_passes exclude (p, v) = true ↔
  hashable_type v = true ∧ (p ∉ exclude → hashable v = true).
Proof.
  unfold item_passes. simpl. rewrite andb_true_iff, orb_true_iff, bool_decide_eq_true.
  split; intros [Ht Hh]; (split; [done|]).
  - intros Hn. by destruct Hh.
  - destruct (decide (p ∈ exclude)); [by left | right; by apply Hh].
Qed.

Lemma set_prop_pass st id_ l d p val (ex : bool) :
  el_db st !! id_ = Some l → heap st !! l = Some d →
  hashable_type val = true → (ex = false → hashable val = true) →
  SimpleDB.set_prop id_ p val ex st =
  (Ret tt, State (<[l := doc_set p val d]> (heap st)) (el_db st)
             (if ex then prop_db st else SimpleDB.index_add p val id_ (prop_db st))
             (fname st)).
Proof.
  intros Hi Hl Ht Hh. unfold SimpleDB.set_prop. rewrite Hi, Hl, Ht. simpl.
  destruct ex; [done|]. by rewrite Hh.
Qed.

Lemma set_prop_ok st id_ l d p val ex :
  el_db st !! id_ = Some l → heap st !! l = Some d → hashable val = true →
  SimpleDB.set_prop id_ p val ex st =
  (Ret tt, State (<[l := doc_set p val d]> (heap st)) (el_db st)
             (if ex then prop_db st else SimpleDB.index_add p val id_ (prop_db st))
             (fname st)).
Proof.
  intros Hi Hl Hh. apply set_prop_pass; [done | done | by apply hashable_type_of | done].
Qed.

(** The value passed the type test and cannot be hashed: with the property
    indexed the call raises once the document is written and the property
    map is there. *)
Lemma set_prop_unhashable st id_ l d p val :
  el_db st !! id_ = Some l → heap st !! l = Some d →
  hashable_type val = true → hashable val = false →
  SimpleDB.set_prop id_ p val false st =
  (Raise TypeError, State (<[l := doc_set p val d]> (heap st)) (el_db st)
                      (SimpleDB.ensure_map p (prop_db st)) (fname st)).
Proof.
  intros Hi Hl Ht Hh. unfold SimpleDB.set_prop. rewrite Hi, Hl, Ht, Hh. done.
Qed.

Lemma set_prop_ret st st' id_ p val (ex : bool) :
  SimpleDB.set_prop id_ p val ex st = (Ret tt, st') →
  ∃ l d, el_db st !! id_ = Some l ∧ heap st !! l = Some d ∧
         hashable_type val = true ∧ (ex = false → hashable val = true).
Proof.
  unfold SimpleDB.set_prop. intros H.
  destruct (el_db st !! id_) as [l|]; [|done].
  destruct (hashable_type val); simpl in H; [|done].
  destruct (heap st !! l) as [d|] eqn:Hl; [|done].
  exists l, d. split_and!; [done..|].
  intros ->. by destruct (hashable val).
Qed.

Lemma add_loop_ret st st' id_ l d exclude its :
  el_db st !! id_ = Some l → heap st !! l = Some d →
  (∀ p v, (p, v) ∈ its → doc_get p d = Some v) →
  for_each (λ '(p, val), SimpleDB.set_prop id_ p val (bool_decide (p ∈ exclude))) its st
    = (Ret tt, st') →
  st' = set_prop_db (index_items exclude id_ its (prop_db st)) st ∧
  ∀ p v, (p, v) ∈ its → item_passes exclude (p, v) = true.
Proof.
  revert st. induction its as [|[p v] its IH]; intros st Hi Hl Hits; simpl.
  - intros [= <-]. split; [by destruct st|]. by intros p v ?%elem_of_nil.
  - unfold bind at 1.
    destruct (SimpleDB.set_prop id_ p v (bool_decide (p ∈ exclude)) st)
      as [[[]|e] st1] eqn:Hsp; [|done].
    destruct (set_prop_ret _ _ _ _ _ _ Hsp) as (l' & d' & Hi' & Hl' & Ht & Hh).
    rewrite Hi in Hi'. injection Hi' as <-. rewrite Hl in Hl'. injection Hl' as <-.
    rewrite (set_prop_pass st id_ l d p v _ Hi Hl Ht Hh) in Hsp.
    rewrite doc_set_same in Hsp by (apply Hits; left).
    rewrite insert_id in Hsp by done.
    injection Hsp as <-. intros Hrest.
    apply IH in Hrest as [-> Hhash]; simpl; [| done | done |].
    + split.
      * unfold index_items. simpl. unfold set_prop_db. simpl.
        by destruct (bool_decide (p ∈ exclude)).
      * intros q w [[= -> ->]|Hin]%elem_of_cons; [|by apply (Hhash q)].
        apply item_passes_spec. split; [done|].
        intros Hn. apply Hh. by apply bool_decide_eq_false.
    + intros q w Hin. apply Hits. by right.
Qed.

Lemma add_loop_pass st id_ l d exclude its :
  el_db st !! id_ = Some l → heap st !! l = Some d →
  (∀ p v, (p, v) ∈ its → doc_get p d = Some v ∧ item_passes exclude (p, v) = true) →
  for_each (λ '(p, val), SimpleDB.set_prop id_ p val (bool_decide (p ∈ exclude))) its st
    = (Ret tt, set_prop_db (index_items exclude id_ its (prop_db st)) st).
Proof.
  revert st. induction its as [|[p v] its IH]; intros st Hi Hl Hits; simpl.
  - by destruct st.
  - unfold bind at 1. destruct (Hits p v) as [Hg [Ht Hh]%item_passes_spec]; [left|].
    rewrite (set_prop_pass st id_ l d p v _ Hi Hl Ht).
    2:{ intros Hn%bool_decide_eq_false. by apply Hh. }
    rewrite doc_set_same by done. rewrite insert_id by done.
    rewrite IH; simpl; [| done | done |].
    + unfold index_items, set_prop_db. simpl.
      by destruct (bool_decide (p ∈ exclude)).
    + intros q w Hin. apply Hits. by right.
Qed.

Lemma add_loop_ok st id_ l d exclude its :
  el_db st !! id_ = Some l → heap st !! l = Some d →
  (∀ p v, (p, v) ∈ its → doc_get p d = Some v ∧ hashable v = true) →
  for_each (λ '(p, val), SimpleDB.set_prop id_ p val (bool_decide (p ∈ exclude))) its st
    = (Ret tt, set_prop_db (index_items exclude id_ its (prop_db st)) st).
Proof.
  intros Hi Hl Hits. apply (add_loop_pass st id_ l d); [done..|].
  intros p v Hin. destruct (Hits p v Hin) as [Hg Hh]. split; [done|].
  apply item_passes_spec. split; [by apply hashable_type_of | done].
Qed.

Lemma ids_at_index_items exclude id_ its idx q w i :
  i ∈ ids_at (index_items exclude id_ its idx) q w ↔
  i ∈ ids_at idx q w ∨ (i = id_ ∧ (q, w) ∈ its ∧ q ∉ exclude).
Proof.
  revert idx. induction its as [|[p v] its IH]; intros idx; simpl.
  - split; [by left | intros [?|(_ & ?%elem_of_nil & _)]; done].
  - unfold index_items in *. simpl. rewrite IH. clear IH.
    rewrite elem_of_cons. case_bool_decide as Hex.
    + split; [intros [?|(? & ? & ?)]; [by left | right; by auto] |].
      intros [?|(? & [[= -> ->]|?] & ?)]; [by left | done | right; by auto].
    + rewrite ids_at_index_add. case_decide as Hpv.
      * destruct Hpv as [-> ->]. rewrite elem_of_union, elem_of_singleton.
        split; [intros [[?|?]|(? & ? & ?)]; [by left | right; by auto | right; by auto] |].
        intros [?|(? & [?|?] & ?)]; [left; by left | left; by right | right; by auto].
      * split; [intros [?|(? & ? & ?)]; [by left | right; by auto] |].
        intros [?|(? & [[= -> ->]|?] & ?)]; [by left | by destruct Hpv | right; by auto].
Qed.
End set_prop.

(** ** add *)

Section add.
Implicit Types (st : state) (p q : prop) (v w val : value) (i j : ident).
Implicit Types (exclude : list prop).

Lemma add_valid_fold (d : doc) (b : bool) :
  fold_left (λ _ '(p, val), hashable_name p && hashable_type val) d b =
  match last d with
  | None => b
  | Some (_, val) => hashable_type val
  end.
Proof.
  revert b. induction d as [|[p v] d IH]; intros b; [done|].
  simpl. rewrite IH, last_cons. by destruct (last d) as [[]|].
Qed.

(** The check of [add] looks at the last item alone. *)
Lemma add_valid_last d :
  SimpleDB.add_valid d = match last d with
                         | None => true
                         | Some (_, val) => hashable_type val
                         end.
Proof. apply add_valid_fold. Qed.

Lemma add_valid_all d :
  (∀ p v, (p, v) ∈ d → hashable_type v = true) → SimpleDB.add_valid d = true.
Proof.
  intros Hd. rewrite add_valid_last.
  destruct (last d) as [[p v]|] eqn:Hl; [|done].
  apply (Hd p). apply last_Some in Hl as [d' ->]. set_solver.
Qed.

Lemma add_pass st el exclude id_ d :
  heap st !! el = Some d → doc_wf d →
  (∀ p v, (p, v) ∈ d → item_passes exclude (p, v) = true) →
  SimpleDB.add el exclude id_ st = (Ret id_, added st el exclude id_ d).
Proof.
  intros Hel Hwf Hh. unfold SimpleDB.add. rewrite Hel, add_valid_all.
  2:{ intros p v Hin. by apply (item_passes_spec exclude p v), Hh. }
  simpl. unfold bind at 1. simpl. unfold bind at 1.
  rewrite (add_loop_pass _ id_ el d); simpl; [done | by rewrite lookup_insert_eq | done |].
  intros p v Hin. split; [by apply doc_get_of_elem | by apply Hh].
Qed.

Lemma add_ok st el exclude id_ d :
  heap st !! el = Some d → doc_wf d →
  (∀ p v, (p, v) ∈ d → hashable v = true) →
  SimpleDB.add el exclude id_ st = (Ret id_, added st el exclude id_ d).
Proof.
  intros Hel Hwf Hh. apply add_pass; [done..|].
  intros p v Hin. apply item_passes_spec.
  split; [by apply hashable_type_of, (Hh p) | intros _; by apply (Hh p)].
Qed.

Lemma add_ret st st' el exclude id_ r :
  heap_wf (heap st) →
  SimpleDB.add el exclude id_ st = (Ret r, st') →
  ∃ d, heap st !! el = Some d ∧ r = id_ ∧ st' = added st el exclude id_ d ∧
       ∀ p v, (p, v) ∈ d → item_passes exclude (p, v) = true.
Proof.
  intros Hwf. unfold SimpleDB.add.
  destruct (heap st !! el) as [d|] eqn:Hel; [|done].
  destruct (SimpleDB.add_valid d); simpl; [|done].
  unfold bind at 1. simpl. unfold bind at 1.
  destruct (for_each _ d _) as [[[]|e] st1] eqn:Hloop; [|done].
  intros [= <- <-].
  apply (add_loop_ret _ _ id_ el d) in Hloop as [-> Hh]; simpl.
  - by exists d.
  - by rewrite lookup_insert_eq.
  - done.
  - intros p v Hin. apply doc_get_of_elem; [by apply (Hwf el)|done].
Qed.
End add.

(** ** query_prop, remove and remove_prop *)

Section removal.
Implicit Types (st : state) (p q : prop) (v w val : value) (i j : ident).
Implicit Types (exclude : list prop).

(** The store as it is: the destructuring of the record gives it back. *)
Lemma set_prop_db_id st : set_prop_db (prop_db st) st = st.
Proof. by destruct st. Qed.

Lemma stored_Some st (id_ : ident) d :
  stored st id_ = Some d ↔
  ∃ l, el_db st !! id_ = Some l ∧ heap st !! l = Some d.
Proof.
  unfold stored. destruct (el_db st !! id_) as [l|]; simpl.
  - split; [by exists l | by intros (? & [= <-] & ?)].
  - split; [done | by intros (? & ? & ?)].
Qed.

Lemma stored_None st (id_ : ident) :
  stored st id_ = None ↔
  el_db st !! id_ = None ∨ ∃ l, el_db st !! id_ = Some l ∧ heap st !! l = None.
Proof.
  unfold stored. destruct (el_db st !! id_) as [l|]; simpl.
  - split; [right; by exists l | by intros [?|(? & [= <-] & ?)]].
  - split; [by left | done].
Qed.

Lemma query_prop_unindexed st p :
  prop_db st !! p = None →
  SimpleDB.query_prop p false st = (Ret (SimpleDB.Ids ∅), st).
Proof. intros Hp. unfold SimpleDB.query_prop, bind, get_state, lift. by rewrite Hp. Qed.

Lemma query_prop_indexed st p pm :
  prop_db st !! p = Some pm → pm ≠ ∅ →
  SimpleDB.query_prop p false st = (Raise TypeError, st).
Proof.
  intros Hp Hne. unfold SimpleDB.query_prop, bind, get_state, lift. rewrite Hp.
  destruct (map_to_list pm) as [|[v ids] r] eqn:Hl; [|done].
  by apply map_to_list_empty_iff in Hl.
Qed.

Lemma remove_absent st (id_ : ident) :
  el_db st !! id_ = None → SimpleDB.remove id_ st = (Raise LookupError, st).
Proof. intros H. unfold SimpleDB.remove. by rewrite H. Qed.

Lemma remove_nonempty st (id_ : ident) d :
  stored st id_ = Some d → d ≠ [] →
  SimpleDB.remove id_ st = (Raise AttributeError, st).
Proof.
  intros (l & Hi & Hl)%stored_Some Hne.
  unfold SimpleDB.remove. rewrite Hi, Hl. by destruct d.
Qed.

Lemma remove_empty st (id_ : ident) :
  stored st id_ = Some [] →
  SimpleDB.remove id_ st = (Ret tt, set_el_db (delete id_ (el_db st)) st).
Proof.
  intros (l & Hi & Hl)%stored_Some.
  unfold SimpleDB.remove. by rewrite Hi, Hl.
Qed.

Lemma remove_ret st st' (id_ : ident) :
  SimpleDB.remove id_ st = (Ret tt, st') →
  stored st id_ = Some [] ∧ st' = set_el_db (delete id_ (el_db st)) st.
Proof.
  intros H. destruct (stored st id_) as [d|] eqn:Hs.
  - destruct d as [|x d].
    + rewrite remove_empty in H by done. by injection H as <-.
    + by rewrite (remove_nonempty st id_ (x :: d)) in H.
  - unfold SimpleDB.remove in H.
    apply stored_None in Hs as [Hi|(l & Hi & Hl)]; rewrite Hi in H; [done|].
    by rewrite Hl in H.
Qed.

Lemma remove_prop_absent st (id_ : ident) p :
  el_db st !! id_ = None → SimpleDB.remove_prop id_ p st = (Raise LookupError, st).
Proof. intros H. unfold SimpleDB.remove_prop. by rewrite H. Qed.

Lemma remove_prop_no_prop st (id_ : ident) p d :
  stored st id_ = Some d → doc_get p d = None →
  SimpleDB.remove_prop id_ p st = (Raise KeyError, st).
Proof.
  intros (l & Hi & Hl)%stored_Some Hg.
  unfold SimpleDB.remove_prop. by rewrite Hi, Hl, Hg.
Qed.

(** On an indexed property [remove_prop] raises from [query_prop], after
    the property has left the document. *)
Lemma remove_prop_indexed st (id_ : ident) p l d v pm :
  el_db st !! id_ = Some l → heap st !! l = Some d → doc_get p d = Some v →
  prop_db st !! p = Some pm → pm ≠ ∅ →
  SimpleDB.remove_prop id_ p st =
  (Raise TypeError, set_heap (<[l := doc_del p d]> (heap st)) st).
Proof.
  intros Hi Hl Hg Hp Hne. unfold SimpleDB.remove_prop. rewrite Hi, Hl, Hg.
  unfold bind at 1. simpl. unfold bind at 1.
  by rewrite (query_prop_indexed _ p pm).
Qed.

Lemma remove_prop_unindexed st (id_ : ident) p l d v :
  el_db st !! id_ = Some l → heap st !! l = Some d → doc_get p d = Some v →
  prop_db st !! p = None →
  SimpleDB.remove_prop id_ p st =
  (Ret tt, set_heap (<[l := doc_del p d]> (heap st)) st).
Proof.
  intros Hi Hl Hg Hp. unfold SimpleDB.remove_prop. rewrite Hi, Hl, Hg.
  unfold bind at 1. simpl. unfold bind at 1.
  rewrite query_prop_unindexed by done.
  rewrite decide_False by apply not_elem_of_empty. done.
Qed.

Lemma remove_prop_ret st st' (id_ : ident) p :
  no_empty st →
  SimpleDB.remove_prop id_ p st = (Ret tt, st') →
  ∃ l d v, el_db st !! id_ = Some l ∧ heap st !! l = Some d ∧
           doc_get p d = Some v ∧ prop_db st !! p = None ∧
           st' = set_heap (<[l := doc_del p d]> (heap st)) st.
Proof.
  intros Hne H.
  destruct (el_db st !! id_) as [l|] eqn:Hi;
    [|by rewrite remove_prop_absent in H].
  destruct (heap st !! l) as [d|] eqn:Hl;
    [|unfold SimpleDB.remove_prop in H; by rewrite Hi, Hl in H].
  destruct (doc_get p d) as [v|] eqn:Hg;
    [|rewrite (remove_prop_no_prop st id_ p d) in H; [done| |done];
      apply stored_Some; by exists l].
  destruct (prop_db st !! p) as [pm|] eqn:Hp.
  - rewrite (remove_prop_indexed st id_ p l d v pm) in H; [done..|].
    by apply (Hne p pm).
  - rewrite (remove_prop_unindexed st id_ p l d v) in H by done.
    injection H as <-. by exists l, d, v.
Qed.
End removal.

(** ** access *)

Section access.
Implicit Types (st : state) (i j : ident) (res : list doc).

Lemma get_copy_stored st (id_ : ident) :
  SimpleDB.get_copy id_ st =
  match stored st id_ with
  | Some d => (Ret d, st)
  | None => (Raise AttributeError, st)
  end.
Proof.
  unfold SimpleDB.get_copy, stored.
  destruct (el_db st !! id_) as [l|]; simpl; [|done].
  by destruct (heap st !! l).
Qed.

Lemma access_from_missing st res (ids : list ident) (id_ : ident) :
  id_ ∈ ids → stored st id_ = None →
  SimpleDB.access_from res ids st = (Raise AttributeError, st).
Proof.
  intros Hin Hs. revert res.
  induction ids as [|i ids IH]; intros res; [by apply elem_of_nil in Hin|].
  simpl. unfold bind. rewrite get_copy_stored.
  destruct (stored st i) as [d|] eqn:Hi; [|done].
  apply elem_of_cons in Hin as [->|Hin]; [congruence|]. by apply IH.
Qed.

Lemma access_from_present st res (ids : list ident) :
  (∀ i, i ∈ ids → is_Some (stored st i)) →
  SimpleDB.access_from res ids st =
  (Ret (res ++ filter (λ d, truthy d) (omap (stored st) ids)), st).
Proof.
  revert res. induction ids as [|i ids IH]; intros res Hall; simpl.
  - by rewrite app_nil_r.
  - unfold bind. rewrite get_copy_stored.
    destruct (Hall i) as [d Hd]; [left|]. rewrite Hd.
    rewrite IH by (intros j Hj; apply Hall; by right).
    destruct d as [|x d]; simpl; [done|].
    rewrite filter_cons_True by done. by rewrite <- app_assoc.
Qed.

Lemma access_from_skip st res (ids : list ident) (id_ : ident) :
  stored st id_ = Some [] →
  SimpleDB.access_from res ids st =
  SimpleDB.access_from res (filter (λ i, i ≠ id_) ids) st.
Proof.
  intros Hs. revert res. induction ids as [|i ids IH]; intros res; [done|].
  destruct (decide (i = id_)) as [->|Hne].
  - rewrite filter_cons_False by (by intros ?).
    simpl. unfold bind. rewrite get_copy_stored, Hs. simpl. apply IH.
  - rewrite filter_cons_True by done.
    simpl. unfold bind. rewrite get_copy_stored.
    destruct (stored st i); [apply IH | done].
Qed.
End access.

(** ** The calls that keep the index consistent *)

Section consistency.
Implicit Types (st : state) (p q : prop) (v w val : value) (i j : ident).
Implicit Types (exclude : list prop).
Implicit Types (ex : gset (ident * prop)).

Lemma stored_added st el exclude (id_ : ident) d j :
  heap st !! el = Some d →
  stored (added st el exclude id_ d) j =
  if decide (j = id_) then Some d else stored st j.
Proof.
  intros Hel. unfold stored, added. simpl.
  rewrite lookup_insert. destruct (decide (id_ = j)) as [->|Hne].
  - by destruct (decide (j = j)).
  - by rewrite decide_False by congruence.
Qed.

Lemma filed_added st el exclude (id_ : ident) d q w i :
  i ∈ filed (added st el exclude id_ d) q w ↔
  i ∈ filed st q w ∨ (i = id_ ∧ (q, w) ∈ d ∧ q ∉ exclude).
Proof. apply ids_at_index_items. Qed.

Lemma stored_written st l d' j :
  stored (set_heap (<[l := d']> (heap st)) st) j =
  if decide (el_db st !! j = Some l) then Some d' else stored st j.
Proof.
  unfold stored. cbn [heap el_db set_heap].
  case_decide as Hj.
  - rewrite Hj. simpl. by rewrite lookup_insert_eq.
  - destruct (el_db st !! j) as [l'|]; simpl; [|done].
    rewrite lookup_insert_ne; [done | congruence].
Qed.

Lemma elem_of_excl_add exclude (id_ : ident) ex i p :
  (i, p) ∈ excl_add exclude id_ ex ↔
  (i ≠ id_ ∧ (i, p) ∈ ex) ∨ (i = id_ ∧ p ∈ exclude).
Proof.
  unfold excl_add. rewrite elem_of_union, elem_of_filter, elem_of_map. simpl.
  split.
  - intros [?|(q & [= -> ->] & Hq%elem_of_list_to_set)]; [by left | by right].
  - intros [?|[-> Hp]]; [by left|]. right. exists p.
    split; [done | by apply elem_of_list_to_set].
Qed.

Lemma consistent_add st st' ex el exclude (id_ : ident) r :
  consistent ex st → el_db st !! id_ = None →
  SimpleDB.add el exclude id_ st = (Ret r, st') →
  consistent (excl_add exclude id_ ex) st'.
Proof.
  intros (Hwf & Hs & Hc & Hne) Hfresh Hadd.
  apply add_ret in Hadd as (d & Hel & -> & -> & Hh); [|done].
  assert (Hnew : stored st id_ = None) by (apply stored_None; by left).
  split_and!.
  - done.
  - intros q w i [Hi|(-> & Hin & Hq)]%filed_added.
    + destruct (Hs q w i Hi) as (d' & Hd' & Hg). exists d'.
      rewrite stored_added by done.
      rewrite decide_False by congruence. done.
    + exists d. rewrite stored_added, decide_True by done.
      split; [done|]. apply doc_get_of_elem; [by apply (Hwf el)|done].
  - intros j d' q w. rewrite stored_added by done.
    rewrite elem_of_excl_add, filed_added.
    destruct (decide (j = id_)) as [->|Hj].
    + intros [= <-] Hg Hex. right. split_and!; [done | by apply doc_get_elem |].
      intros Hq. apply Hex. by right.
    + intros Hd' Hg Hex. left. apply (Hc j d' q w); [done..|].
      intros Hin. apply Hex. by left.
  - by apply no_empty_index_items.
Qed.

Lemma consistent_set_prop st st' ex (id_ : ident) p val (exclude : bool) :
  consistent ex st → creates st (SetProp id_ p val exclude) →
  SimpleDB.set_prop id_ p val exclude st = (Ret tt, st') →
  consistent (excl_set_prop id_ p exclude ex) st'.
Proof.
  intros (Hwf & Hs & Hc & Hne) [Hnop Halone] Hsp.
  destruct (set_prop_ret _ _ _ _ _ _ Hsp) as (l & d & Hi & Hl & Ht & Hh).
  rewrite (set_prop_pass st id_ l d p val _ Hi Hl Ht Hh) in Hsp. injection Hsp as <-.
  assert (Hsd : stored st id_ = Some d) by (apply stored_Some; by exists l).
  rewrite Hsd in Hnop. simpl in Hnop.
  assert (Hst : ∀ j, stored (State (<[l := doc_set p val d]> (heap st)) (el_db st)
                       (if exclude then prop_db st
                        else SimpleDB.index_add p val id_ (prop_db st)) (fname st)) j
                     = if decide (j = id_) then Some (doc_set p val d) else stored st j).
  { intros j. etrans; [apply (stored_written st l (doc_set p val d) j)|].
    destruct (decide (j = id_)) as [->|Hj].
    - by rewrite decide_True.
    - rewrite decide_False; [done|]. intros Hj'. apply Hj, Halone. congruence. }
  assert (Hfd : ∀ q w i,
             i ∈ filed (State (<[l := doc_set p val d]> (heap st)) (el_db st)
                       (if exclude then prop_db st
                        else SimpleDB.index_add p val id_ (prop_db st)) (fname st)) q w
             ↔ i ∈ filed st q w ∨ (exclude = false ∧ i = id_ ∧ q = p ∧ w = val)).
  { intros q w i. unfold filed. simpl. destruct exclude.
    - split; [by left | by intros [?|(? & _)]].
    - rewrite ids_at_index_add. case_decide as Hpq.
      + destruct Hpq as [-> ->]. rewrite elem_of_union, elem_of_singleton.
        split; [intros [?| ->]; [by left | by right] | intros [?|(_ & -> & _)]; by auto].
      + split; [by left | intros [?|(_ & _ & -> & ->)]; [done | by destruct Hpq]]. }
  split_and!.
  - intros l' d'. simpl. rewrite lookup_insert. case_decide as Hll.
    + intros [= <-]. apply doc_wf_set. by apply (Hwf l).
    + apply Hwf.
  - intros q w i [Hin|(_ & -> & -> & ->)]%Hfd.
    + destruct (Hs q w i Hin) as (d' & Hd' & Hg).
      rewrite Hst. destruct (decide (i = id_)) as [->|Hj].
      * exists (doc_set p val d). split; [done|].
        rewrite Hsd in Hd'. injection Hd' as <-.
        rewrite doc_get_set, decide_False; [done|]. intros ->. congruence.
      * by exists d'.
    + exists (doc_set p val d). rewrite Hst, decide_True by done.
      split; [done|]. by rewrite doc_get_set, decide_True.
  - intros j d' q w. rewrite Hst. intros Hd' Hg Hex. apply Hfd.
    destruct (decide (j = id_)) as [->|Hj].
    + injection Hd' as <-. rewrite doc_get_set in Hg.
      destruct (decide (p = q)) as [<-|Hpq].
      * injection Hg as <-. right. split_and!; [|done..].
        destruct exclude; [|done]. exfalso. apply Hex.
        apply elem_of_union. right. by apply elem_of_singleton.
      * left. apply (Hc id_ d q w); [done..|].
        intros Hin. apply Hex. unfold excl_set_prop.
        destruct exclude; [apply elem_of_union; by left|].
        apply elem_of_difference. split; [done|].
        rewrite elem_of_singleton. congruence.
    + left. apply (Hc j d' q w); [done..|].
      intros Hin. apply Hex. unfold excl_set_prop.
      destruct exclude; [apply elem_of_union; by left|].
      apply elem_of_difference. split; [done|].
      rewrite elem_of_singleton. congruence.
  - unfold no_empty. simpl. destruct exclude; [done|].
    by apply no_empty_index_add.
Qed.

Lemma consistent_remove st st' ex (id_ : ident) :
  consistent ex st → SimpleDB.remove id_ st = (Ret tt, st') → consistent ex st'.
Proof.
  intros (Hwf & Hs & Hc & Hne) [Hempty ->]%remove_ret.
  assert (Hst : ∀ j, j ≠ id_ →
            stored (set_el_db (delete id_ (el_db st)) st) j = stored st j).
  { intros j Hj. unfold stored. simpl. by rewrite lookup_delete_ne. }
  split_and!; [done | | | done].
  - intros q w i Hi. destruct (Hs q w i Hi) as (d & Hd & Hg).
    exists d. split; [|done]. rewrite Hst; [done|].
    intros ->. rewrite Hempty in Hd. by injection Hd as <-.
  - intros j d q w Hd Hg Hex.
    destruct (decide (j = id_)) as [->|Hj].
    + unfold stored in Hd. simpl in Hd. by rewrite lookup_delete_eq in Hd.
    + rewrite Hst in Hd by done. by apply (Hc j d q w).
Qed.

Lemma consistent_remove_prop st st' ex (id_ : ident) p :
  consistent ex st → SimpleDB.remove_prop id_ p st = (Ret tt, st') →
  consistent ex st'.
Proof.
  intros (Hwf & Hs & Hc & Hne) Hrp.
  apply remove_prop_ret in Hrp as (l & d & v & Hi & Hl & Hg & Hp & ->); [|done].
  assert (Hnone : ∀ w, filed st p w = ∅).
  { intros w. unfold filed, ids_at. by rewrite Hp. }
  split_and!; [| | | done].
  - intros l' d'. simpl. rewrite lookup_insert. case_decide as Hll.
    + intros [= <-]. apply doc_wf_del. by apply (Hwf l).
    + apply Hwf.
  - intros q w i Hin. change (i ∈ filed st q w) in Hin.
    destruct (Hs q w i Hin) as (d' & Hd' & Hg').
    assert (Hpq : p ≠ q).
    { intros ->. rewrite Hnone in Hin. by apply not_elem_of_empty in Hin. }
    rewrite stored_written. case_decide as Hj.
    + exists (doc_del p d). split; [done|].
      apply stored_Some in Hd' as (l' & Hi' & Hl').
      rewrite Hj in Hi'. injection Hi' as <-. rewrite Hl in Hl'. injection Hl' as <-.
      by rewrite doc_get_del_ne.
    + by exists d'.
  - intros j d' q w. rewrite stored_written. intros Hd' Hg' Hex.
    change (j ∈ filed st q w). case_decide as Hj.
    + injection Hd' as <-.
      assert (Hpq : p ≠ q).
      { intros ->. rewrite doc_get_del_eq in Hg'; [done | by apply (Hwf l)]. }
      rewrite doc_get_del_ne in Hg' by done.
      apply (Hc j d q w); [|done..]. apply stored_Some. by exists l.
    + by apply (Hc j d' q w).
Qed.

Lemma consistent_init h : heap_wf h → consistent ∅ (init h).
Proof.
  intros Hwf. split_and!; [done | | | ].
  - intros q w i Hi. by apply not_elem_of_empty in Hi.
  - intros j d q w Hd. unfold stored in Hd. simpl in Hd.
    by rewrite lookup_empty in Hd.
  - intros q pm Hq. simpl in Hq. by rewrite lookup_empty in Hq.
Qed.

Lemma consistent_run ops st ex :
  consistent ex st → orderly ops st → consistent (excluded ops ex) (run ops st).
Proof.
  revert st ex. induction ops as [|o ops IH]; intros st ex Hc; [done|].
  intros (Hcr & Hret & Hrest). unfold run in *. simpl.
  destruct (exec o st) as [r st1] eqn:Hexec. simpl in *. subst r.
  destruct o as [el exclude id_|id_|id_ p val exclude|id_ p]; simpl in *.
  - apply IH; [|done]. unfold bind in Hexec.
    destruct (SimpleDB.add el exclude id_ st) as [[r|e] st2] eqn:Hadd; [|done].
    injection Hexec as <-. by apply (consistent_add st st2 ex el exclude id_ r).
  - apply IH; [|done]. by apply (consistent_remove st st1 ex id_).
  - apply IH; [|done]. by apply (consistent_set_prop st st1 ex id_ p val exclude).
  - apply IH; [|done]. by apply (consistent_remove_prop st st1 ex id_ p).
Qed.
End consistency.

(** ** query *)

Section query.
Implicit Types (st : state) (p q : prop) (v w val : value) (i j : ident).
Implicit Types (exclude : list prop).

Lemma query_scan_eq_miss (kvs : list (value * gset ident)) val matches :
  val ∉ kvs.*1 →
  SimpleDB.query_scan db_queries.eq val kvs matches = Ret matches.
Proof.
  revert matches. induction kvs as [|[w ids] kvs IH]; intros matches; [done|].
  csimpl. rewrite not_elem_of_cons. intros [Hne Hnin].
  rewrite bool_decide_eq_false_2 by congruence. by apply IH.
Qed.

Lemma query_scan_eq_hit (kvs : list (value * gset ident)) val ids matches :
  NoDup kvs.*1 → (val, ids) ∈ kvs →
  SimpleDB.query_scan db_queries.eq val kvs matches = Ret (matches ∪ ids).
Proof.
  revert matches. induction kvs as [|[w ids'] kvs IH]; intros matches.
  - by intros _ ?%elem_of_nil.
  - csimpl. rewrite NoDup_cons. intros [Hw Hnd] [[= <- <-]|Hin]%elem_of_cons.
    + rewrite bool_decide_eq_true_2 by done. by apply query_scan_eq_miss.
    + rewrite bool_decide_eq_false_2; [by apply IH|].
      intros ->. apply Hw. apply list_elem_of_fmap. by exists (val, ids).
Qed.

(** With the test [eq], [query] gives the set filed under the value. *)
Lemma query_eq_filed st p val :
  SimpleDB.query p db_queries.eq val false st = (Ret (SimpleDB.Ids (filed st p val)), st).
Proof.
  unfold SimpleDB.query, bind, get_state, lift, filed, ids_at. simpl.
  destruct (prop_db st !! p) as [pm|]; simpl; [|done].
  destruct (pm !! val) as [ids|] eqn:Hv; simpl.
  - rewrite (query_scan_eq_hit _ val ids).
    + by rewrite (left_id_L ∅ (∪)).
    + apply NoDup_fst_map_to_list.
    + by apply elem_of_map_to_list.
  - rewrite query_scan_eq_miss; [done|].
    intros [[w ids] [Hw Hin]]%list_elem_of_fmap. simpl in Hw. subst w.
    apply elem_of_map_to_list in Hin. congruence.
Qed.

Lemma query_unindexed st p (test : test_fn) val :
  prop_db st !! p = None →
  SimpleDB.query p test val false st = (Ret (SimpleDB.Ids ∅), st).
Proof. intros Hp. unfold SimpleDB.query, bind, get_state, lift. by rewrite Hp. Qed.

Lemma add_calls_ret calls st st' :
  heap_wf (heap st) →
  NoDup calls.*2 → (∀ c, c ∈ calls → el_db st !! c.2 = None) →
  run_block (add_calls calls) st = (Ret tt, st') →
  heap st' = heap st ∧
  (∀ j el, el_db st' !! j = Some el ↔
           el_db st !! j = Some el ∨ ∃ exclude, (el, exclude, j) ∈ calls) ∧
  (∀ q w i, i ∈ filed st' q w ↔
            i ∈ filed st q w ∨
            ∃ el exclude d, (el, exclude, i) ∈ calls ∧ heap st !! el = Some d ∧
                            (q, w) ∈ d ∧ q ∉ exclude).
Proof.
  revert st. induction calls as [|[[el exclude] id_] calls IH]; intros st Hwf Hnd Hfresh.
  - intros [= <-]. split_and!; [done | |].
    + intros j el. split; [by left | by intros [?|[? ?%elem_of_nil]]].
    + intros q w i. split; [by left | by intros [?|(? & ? & ? & ?%elem_of_nil & _)]].
  - csimpl in *. apply NoDup_cons in Hnd as [Hid Hnd].
    unfold run_block. simpl. unfold bind at 1. unfold bind at 1.
    destruct (SimpleDB.add el exclude id_ st) as [[r|e] st1] eqn:Hadd; [|done].
    intros Hrest.
    apply add_ret in Hadd as (d & Hel & -> & -> & Hh); [|done].
    assert (Hid0 : el_db st !! id_ = None) by (apply (Hfresh (el, exclude, id_)); left).
    apply IH in Hrest as (Hheap & Hel_db & Hfiled); [|done|done|].
    + simpl in *. split_and!; [done | |].
      * intros j el'. rewrite Hel_db, lookup_insert. split.
        -- intros [Hj|[ex Hin]]; [|right; exists ex; by right].
           case_decide as Hij; [|by left]. subst j. injection Hj as <-.
           right. exists exclude. left.
        -- intros [Hj|[ex [[= -> -> ->]|Hin]%elem_of_cons]].
           ++ left. rewrite decide_False; [done|]. intros ->. congruence.
           ++ left. by rewrite decide_True.
           ++ right. by exists ex.
      * intros q w i. rewrite Hfiled, filed_added. split.
        -- intros [[Hi|(-> & Hin & Hq)]|(el' & ex & d' & Hin & Hd' & Hqw & Hq)].
           ++ by left.
           ++ right. exists el, exclude, d. split; [left|done].
           ++ right. exists el', ex, d'. split; [by right|done].
        -- intros [Hi|(el' & ex & d' & [[= -> -> ->]|Hin]%elem_of_cons & Hd' & Hqw & Hq)].
           ++ left. by left.
           ++ left. right. rewrite Hel in Hd'. injection Hd' as <-. done.
           ++ right. by exists el', ex, d'.
    + simpl. intros [[el' ex] j] Hin. simpl. rewrite lookup_insert_ne.
      * apply (Hfresh (el', ex, j)). by right.
      * intros ->. apply Hid. apply list_elem_of_fmap. by exists (el', ex, j).
Qed.
End query.

(** ** What remove and remove_prop leave of the index *)

Section growth.
Implicit Types (st : state) (p q : prop) (v w val : value) (i j : ident).
Implicit Types (exclude : list prop).

Lemma remove_prop_db st (id_ : ident) :
  prop_db (SimpleDB.remove id_ st).2 = prop_db st.
Proof.
  unfold SimpleDB.remove.
  destruct (el_db st !! id_) as [l|]; [|done].
  destruct (heap st !! l) as [[|x d]|]; done.
Qed.

Lemma remove_prop_prop_db st (id_ : ident) p :
  prop_db (SimpleDB.remove_prop id_ p st).2 = prop_db st.
Proof.
  unfold SimpleDB.remove_prop.
  destruct (el_db st !! id_) as [l|]; [|done].
  destruct (heap st !! l) as [d|]; [|done].
  destruct (doc_get p d) as [v|]; [|done].
  unfold bind at 1. simpl. unfold bind at 1.
  unfold SimpleDB.query_prop, bind, get_state, lift. simpl.
  destruct (prop_db st !! p) as [pm|]; simpl.
  - by destruct (map_to_list pm).
  - by rewrite decide_False by apply not_elem_of_empty.
Qed.
End growth.

(** * The claims *)

(** ** add *)

(** The check of [DB.add] steps over the excluded properties and raises on
    the first indexed value that fails the type test, before any write. *)
Lemma DB_add_check_raises exclude (d : doc) p v :
  (p, v) ∈ d → p ∉ exclude → hashable_type v = false →
  DB.add_check exclude d = Raise TypeError.
Proof.
  intros Hin Hex Hh. induction d as [|[q w] d IH]; [by apply elem_of_nil in Hin|].
  simpl. apply elem_of_cons in Hin as [[= <- <-]|Hin].
  - rewrite bool_decide_eq_false_2 by done. by rewrite Hh.
  - case_bool_decide; [by apply IH|].
    destruct (hashable_type w); simpl; [by apply IH|done].
Qed.

Lemma DB_add_check_passes exclude (d : doc) :
  (∀ p v, (p, v) ∈ d → p ∉ exclude → hashable_type v = true) →
  DB.add_check exclude d = Ret tt.
Proof.
  induction d as [|[q w] d IH]; intros Hd; [done|].
  simpl. case_bool_decide as Hq.
  - apply IH. intros p v Hin. apply Hd. by right.
  - rewrite (Hd q w); [|left|done]. simpl.
    apply IH. intros p v Hin. apply Hd. by right.
Qed.

Lemma DB_add_rejects st el exclude (_id : ident) d p v :
  heap st !! el = Some d → (p, v) ∈ d → p ∉ exclude → hashable_type v = false →
  DB.add el exclude _id st = (Raise TypeError, st).
Proof.
  intros Hel Hin Hex Hh. unfold DB.add.
  by rewrite Hel, (DB_add_check_raises exclude d p v).
Qed.

Lemma DB_add_loop_returns exclude (_id : ident) (its : doc) st :
  (∀ p v, (p, v) ∈ its → p ∉ exclude → hashable v = true) →
  ∃ st', for_each (DB.add_item exclude _id) its st = (Ret tt, st').
Proof.
  revert st. induction its as [|[p v] its IH]; intros st Hits; [by exists st|].
  simpl. unfold bind at 1. unfold DB.add_item at 1.
  case_bool_decide as Hp; simpl.
  - apply IH. intros q w Hin. apply Hits. by right.
  - rewrite (Hits p v); [|left|done]. simpl.
    apply IH. intros q w Hin. apply Hits. by right.
Qed.

Lemma DB_add_accepts st el exclude (_id : ident) d :
  heap st !! el = Some d →
  (∀ p v, (p, v) ∈ d → p ∉ exclude → hashable v = true) →
  ∃ st', DB.add el exclude _id st = (Ret _id, st').
Proof.
  intros Hel Hd. unfold DB.add. rewrite Hel, DB_add_check_passes.
  2:{ intros p v Hin Hp. by apply hashable_type_of, (Hd p). }
  unfold bind at 1. simpl. unfold bind at 1.
  destruct (DB_add_loop_returns exclude _id d
              (set_el_db (<[_id := el]> (el_db st)) st) Hd) as [st' ->].
  by exists st'.
Qed.

(** C2 (the code departs from it).  [SimpleDB.add] is to raise [TypeError]
    exactly when a property outside the exclusion list has an unhashable
    value, and to leave the store alone when it raises.  On
    [{"secret": [1, 2, 3]}] with ["secret"] excluded it raises all the same;
    on [{"a": [1], "b": 1}] its check passes, the document is stored and the
    exception comes from [set_prop], so that the table has grown by one.
    [DB.add] accepts the first document and rejects the second untouched. *)
Theorem add_validation_departs :
  SimpleDB.add 0 ["secret"] "i" (init heap_secret) =
    (Raise TypeError, init heap_secret) ∧
  SimpleDB.add 0 [] "i" (init heap_mixed) =
    (Raise TypeError, State heap_mixed {[ "i" := 0 ]} ∅ None) ∧
  (SimpleDB.size (SimpleDB.add 0 [] "i" (init heap_mixed)).2).1 = Ret 1 ∧
  (SimpleDB.size (init heap_mixed)).1 = Ret 0 ∧
  DB.add 0 ["secret"] "i" (init heap_secret) =
    (Ret "i", State heap_secret {[ "i" := 0 ]} ∅ None) ∧
  DB.add 0 [] "i" (init heap_mixed) = (Raise TypeError, init heap_mixed).
Proof. split_and!; vm_compute; reflexivity. Qed.

(** ** query *)

(** C3 as it is stated fails when an identifier is used twice: after
    [add({"name": "a", "age": 30}, id_="i")] and [add({}, id_="i")], which
    both return, [query("age", eq, 30)] returns [{"i"}], and the document
    stored under ["i"] is the empty one. *)
Lemma query_eq_names_replaced_document :
  run_block (add_calls reused_calls) (init heap_people) = (Ret tt, st_reused) ∧
  SimpleDB.query "age" db_queries.eq (VInt 30) false st_reused =
    (Ret (SimpleDB.Ids {[ "i" ]}), st_reused) ∧
  stored st_reused "i" = Some [] ∧
  ¬ (∃ d, stored st_reused "i" = Some d ∧ doc_get "age" d = Some (VInt 30)).
Proof.
  split_and!; try (vm_compute; reflexivity).
  intros (d & Hd & Hg). vm_compute in Hd. injection Hd as <-. discriminate.
Qed.

(** A call of [add] that raises from [set_prop] has stored its document:
    after [add({"a": [1], "b": 1})] in its own [try], the document is in the
    table and [query("b", eq, 1)] does not find it. *)
Example query_eq_misses_document_of_raising_add :
  let st := run (add_calls [(0, [], "i")]) (init heap_mixed) in
  stored st "i" = Some [("a", VList [1%Z]); ("b", VInt 1)] ∧
  SimpleDB.query "b" db_queries.eq (VInt 1) false st = (Ret (SimpleDB.Ids ∅), st).
Proof. split; vm_compute; reflexivity. Qed.

(** C3 (amended).  In a store built by calls of [add] alone, all of which
    returned, under pairwise distinct identifiers, [query(prop, eq, v)] returns exactly
    the identifiers whose stored document has [prop] with value [v], [prop]
    being outside the exclusion list of the call; and on any store a property
    that the index does not hold gives the empty set, whatever the test. *)
Theorem query_eq_exact :
  (∀ h calls st p v,
     heap_wf h → NoDup calls.*2 →
     run_block (add_calls calls) (init h) = (Ret tt, st) →
     ∃ matches,
       SimpleDB.query p db_queries.eq v false st = (Ret (SimpleDB.Ids matches), st) ∧
       ∀ id_, id_ ∈ matches ↔
         ∃ el exclude d, (el, exclude, id_) ∈ calls ∧ stored st id_ = Some d ∧
                         doc_get p d = Some v ∧ p ∉ exclude) ∧
  (∀ st p (test : test_fn) val,
     prop_db st !! p = None →
     SimpleDB.query p test val false st = (Ret (SimpleDB.Ids ∅), st)).
Proof.
  split; [|apply query_unindexed].
  intros h calls st p v Hwf Hnd Hrun.
  apply add_calls_ret in Hrun as (Hheap & Hel_db & Hfiled); [|done..].
  exists (filed st p v). split; [apply query_eq_filed|].
  intros id_. rewrite Hfiled. simpl in *. split.
  - intros [Hin|(el & ex & d & Hin & Hd & Hpv & Hex)].
    + by apply not_elem_of_empty in Hin.
    + exists el, ex, d. split_and!; [done | | | done].
      * apply stored_Some. exists el. rewrite Hheap. split; [|done].
        apply Hel_db. right. by exists ex.
      * apply doc_get_of_elem; [by apply (Hwf el)|done].
  - intros (el & ex & d & Hin & Hd & Hg & Hex). right.
    exists el, ex, d. split_and!; [done | | by apply doc_get_elem | done].
    apply stored_Some in Hd as (l & Hl & Hd). rewrite Hheap in Hd.
    apply Hel_db in Hl as [Hl|[ex' Hin']]; [by rewrite lookup_empty in Hl|].
    assert (Hsame : el_db st !! id_ = Some el) by (apply Hel_db; right; by exists ex).
    assert (Hsame' : el_db st !! id_ = Some l) by (apply Hel_db; right; by exists ex').
    rewrite Hsame in Hsame'. by injection Hsame' as <-.
Qed.

Lemma heap_people_wf : heap_wf heap_people.
Proof. apply (bool_decide_unpack _). vm_compute. exact I. Qed.

Lemma query_eq_exact_witness :
  heap_wf heap_people ∧
  NoDup people_calls.*2 ∧
  run_block (add_calls people_calls) (init heap_people) = (Ret tt, st_people) ∧
  ∃ matches,
    SimpleDB.query "age" db_queries.eq (VInt 30) false st_people
    = (Ret (SimpleDB.Ids matches), st_people) ∧
    ∀ id_, id_ ∈ matches ↔
      ∃ el exclude d,
        (el, exclude, id_) ∈ people_calls ∧ stored st_people id_ = Some d ∧
        doc_get "age" d = Some (VInt 30) ∧ "age" ∉ exclude.
Proof.
  assert (Hnd : NoDup people_calls.*2).
  { apply (bool_decide_unpack _). vm_compute. exact I. }
  assert (Hrun : run_block (add_calls people_calls) (init heap_people)
                 = (Ret tt, st_people)) by (vm_compute; reflexivity).
  split_and!; [apply heap_people_wf | exact Hnd | exact Hrun |].
  exact (proj1 query_eq_exact heap_people people_calls st_people "age" (VInt 30)
           heap_people_wf Hnd Hrun).
Defined.

(** ** The consistency of the index *)

(** C1 as it is stated fails: [add({"a": 1})] and then [set_prop] of ["a"]
    to [2] leaves the identifier filed under [("a", 1)], a value that the
    document no longer has. *)
Lemma consistency_broken_by_overwrite :
  ¬ index_sound (run [Add 0 [] "i"; SetProp "i" "a" (VInt 2) false] (init heap0)).
Proof.
  intros Hs. destruct (Hs "a" (VInt 1) "i") as (d & Hd & Hg).
  - vm_compute. reflexivity.
  - vm_compute in Hd. injection Hd as <-. vm_compute in Hg. discriminate.
Qed.

(** C1 (amended).  Start from an empty [SimpleDB] store.  When every call
    of the sequence returns normally and creates, that is [add] under an
    identifier that the table does not hold and [set_prop] for a property
    that the document does not have yet, on a dict object stored under that
    identifier alone, then every identifier filed under a pair (property,
    value) names a document that has this property with this value, every
    property of a stored document whose last assignment was not flagged as
    excluded is filed under its value, and the index holds no empty property
    map and no empty set of identifiers. *)
Theorem consistent_after_creating_calls h ops :
  heap_wf h → orderly ops (init h) →
  index_sound (run ops (init h)) ∧
  index_complete (excluded ops ∅) (run ops (init h)) ∧
  no_empty (run ops (init h)).
Proof.
  intros Hwf Hord.
  destruct (consistent_run ops (init h) ∅) as (_ & Hs & Hc & Hne);
    [by apply consistent_init | done | done].
Qed.

Lemma consistent_after_creating_calls_witness :
  heap_wf heap_people ∧
  orderly creating_calls (init heap_people) ∧
  index_sound (run creating_calls (init heap_people)) ∧
  index_complete (excluded creating_calls ∅) (run creating_calls (init heap_people)) ∧
  no_empty (run creating_calls (init heap_people)).
Proof.
  assert (Hord : orderly creating_calls (init heap_people)).
  { simpl. split_and!; try (vm_compute; reflexivity); try exact I.
    intros j.
    replace (el_db ((SimpleDB.add 0 ["name"] "i";;; ret ()) (init heap_people)).2)
      with ({[ "i" := 0 ]} : gmap string nat) by (vm_compute; reflexivity).
    rewrite lookup_singleton_eq. by intros [? _]%lookup_singleton_Some. }
  split; [apply heap_people_wf|]. split; [exact Hord|].
  exact (consistent_after_creating_calls heap_people creating_calls heap_people_wf Hord).
Defined.

(** The store these calls leave: the excluded property is gone from the
    document, the two indexed ones are filed. *)
Example creating_calls_result :
  run creating_calls (init heap_people) =
  State (<[ 0 := [("age", VInt 30); ("city", VStr "x")] ]> heap_people)
        {[ "i" := 0 ]}
        {[ "age" := {[ VInt 30 := {[ "i" ]} ]};
           "city" := {[ VStr "x" := {[ "i" ]} ]} ]} None.
Proof. vm_compute. reflexivity. Qed.

(** Each condition on the calls is needed.  A second [add] under an
    identifier that the table holds replaces the document and keeps the
    entries of the first one. *)
Example second_add_under_same_identifier :
  let st := run [Add 0 [] "i"; Add 2 [] "i"] (init heap_people) in
  "i" ∈ filed st "age" (VInt 30) ∧ stored st "i" = Some [].
Proof. split; vm_compute; reflexivity. Qed.

(** A new property set through one identifier reaches the document of the
    identifier that shares the dict object, and is not filed for it. *)
Example set_prop_on_shared_document :
  let st := run [Add 0 [] "i"; Add 0 [] "j"; SetProp "i" "b" (VInt 5) false] (init heap0) in
  stored st "j" = Some [("a", VInt 1); ("b", VInt 5)] ∧
  filed st "b" (VInt 5) = {[ "i" ]}.
Proof. split; vm_compute; reflexivity. Qed.

(** A call that raises may have written before: [remove_prop] of an indexed
    property empties the document and leaves the entry, and the [remove]
    that follows succeeds on the empty document, so that the index files an
    identifier that the table no longer holds. *)
Example calls_that_raise_midway :
  let st := run [Add 0 [] "i"; RemoveProp "i" "a"; Remove "i"] (init heap0) in
  "i" ∈ filed st "a" (VInt 1) ∧ el_db st !! "i" = None.
Proof. split; vm_compute; reflexivity. Qed.

(** A call that raises may also leave an empty property map: [set_prop]
    with the tuple [(1, [2])] passes the type test, writes the document,
    creates the map of the property and raises when the value is hashed. *)
Example set_prop_leaves_empty_map :
  SimpleDB.set_prop "i" "t" tuple_with_list false st_a1 =
    (Raise TypeError,
     State {[ 0 := [("a", VInt 1); ("t", tuple_with_list)] ]} {[ "i" := 0 ]}
           {[ "a" := {[ VInt 1 := {[ "i" ]} ]}; "t" := ∅ ]} None) ∧
  ¬ no_empty (SimpleDB.set_prop "i" "t" tuple_with_list false st_a1).2.
Proof.
  split; [vm_compute; reflexivity|].
  intros Hne. destruct (Hne "t" ∅) as [Hn _]; [vm_compute; reflexivity | done].
Qed.

(** ** query_prop *)

(** C4 (the code departs from it).  [query_prop] is to return the union of
    the sets filed under the property.  It hands the sets themselves to
    [set.update] as elements, so for the one document [{"a": 1}] the call
    [query_prop("a")] raises [TypeError]; a property that the index does not
    hold gives the empty set. *)
Theorem query_prop_raises_on_indexed_property :
  SimpleDB.query_prop "a" false st_a1 = (Raise TypeError, st_a1) ∧
  prop_db st_a1 !! "a" = Some {[ VInt 1 := {[ "i" ]} ]} ∧
  SimpleDB.query_prop "b" false st_a1 = (Ret (SimpleDB.Ids ∅), st_a1).
Proof. split_and!; vm_compute; reflexivity. Qed.

(** ** access *)

(** C5 (the code departs from it).  [access] is to skip the identifiers that
    the table does not hold.  It calls [copy] on what [get] returned before
    it looks at it, so [access(["x"])] on an empty store raises
    [AttributeError], and so does [access(["i", "x"])] next to a stored
    ["i"]. *)
Theorem access_raises_on_missing_identifier :
  SimpleDB.access ["x"] (init ∅) = (Raise AttributeError, init ∅) ∧
  SimpleDB.access ["i"; "x"] st_a1 = (Raise AttributeError, st_a1) ∧
  SimpleDB.access ["i"] st_a1 = (Ret [doc_a1], st_a1).
Proof. split_and!; vm_compute; reflexivity. Qed.

(** Any identifier of the sequence that names no stored dict makes the
    whole call raise. *)
Lemma access_missing st (ids : list ident) (id_ : ident) :
  id_ ∈ ids → stored st id_ = None →
  SimpleDB.access ids st = (Raise AttributeError, st).
Proof. apply access_from_missing. Qed.

(** When every identifier of the sequence is stored, [access] returns the
    documents that are not empty, in the order of the sequence. *)
Lemma access_present st (ids : list ident) :
  (∀ i, i ∈ ids → is_Some (stored st i)) →
  SimpleDB.access ids st =
  (Ret (filter (λ d, truthy d) (omap (stored st) ids)), st).
Proof. intros Hall. exact (access_from_present st [] ids Hall). Qed.

(** An identifier that the table holds with an empty document leaves no
    trace in what [access] does: the call behaves as on the sequence without
    that identifier, and when the other identifiers are stored it returns
    their non-empty documents, the empty one left out. *)
Lemma access_omits_empty_document st (ids : list ident) (id_ : ident) :
  stored st id_ = Some [] →
  SimpleDB.access ids st = SimpleDB.access (filter (λ i, i ≠ id_) ids) st ∧
  ((∀ i, i ∈ ids → is_Some (stored st i)) →
   SimpleDB.access ids st =
   (Ret (filter (λ d, truthy d) (omap (stored st) (filter (λ i, i ≠ id_) ids))), st)).
Proof.
  intros Hs. split; [by apply access_from_skip|].
  intros Hall. unfold SimpleDB.access.
  rewrite (access_from_skip st [] ids id_ Hs).
  apply (access_from_present st []).
  intros i [_ Hi]%list_elem_of_filter. by apply Hall.
Qed.

(** C10 (the code departs from it).  A stored empty document is dropped from
    the result of [access], by the test [if el:], and this is to make it look
    like an identifier that the table does not hold.  The two are told
    apart: with ["e"] stored as [{}] and ["x"] not stored, [access(["e"])]
    returns the empty list and [access(["x"])] raises [AttributeError]. *)
Theorem access_tells_empty_from_missing :
  stored st_empty_doc "e" = Some [] ∧
  el_db st_empty_doc !! "x" = None ∧
  SimpleDB.access ["e"] st_empty_doc = (Ret [], st_empty_doc) ∧
  SimpleDB.access ["e"; "i"; "e"] st_empty_doc = (Ret [doc_a1], st_empty_doc) ∧
  SimpleDB.access ["x"] st_empty_doc = (Raise AttributeError, st_empty_doc).
Proof. split_and!; vm_compute; reflexivity. Qed.

(** ** remove *)

(** C6 (the code departs from it).  [remove] of a stored identifier is to
    clear its index entries and delete the document.  [SimpleDB.remove]
    calls [self.del_prop], which the class does not define: for the one
    document [{"a": 1}] it raises [AttributeError] and nothing is removed.
    [DB.remove] on the same store empties the set, deletes the value entry
    and stops on the undefined name [slef], leaving an empty property map
    and the document in place. *)
Theorem remove_raises_on_stored_document :
  SimpleDB.remove "i" st_a1 = (Raise AttributeError, st_a1) ∧
  (SimpleDB.size (SimpleDB.remove "i" st_a1).2).1 = Ret 1 ∧
  DB.remove "i" st_a1 =
    (Raise NameError, State heap0 {[ "i" := 0 ]} {[ "a" := ∅ ]} None) ∧
  SimpleDB.remove "x" st_a1 = (Raise LookupError, st_a1).
Proof. split_and!; vm_compute; reflexivity. Qed.

(** ** remove_prop *)

(** C7 (the code departs from it).  [remove_prop] of an indexed property is
    to delete it from the document and to clear the index entry.  It asks
    [query_prop] after the deletion, and that call raises: for the one
    document [{"a": 1}], [remove_prop("i", "a")] raises [TypeError], the
    document is left empty and the index still files ["i"] under
    [("a", 1)].  The two error cases leave the store alone. *)
Theorem remove_prop_raises_on_indexed_property :
  SimpleDB.remove_prop "i" "a" st_a1 =
    (Raise TypeError,
     State {[ 0 := [] ]} {[ "i" := 0 ]} {[ "a" := {[ VInt 1 := {[ "i" ]} ]} ]} None) ∧
  SimpleDB.remove_prop "x" "a" st_a1 = (Raise LookupError, st_a1) ∧
  SimpleDB.remove_prop "i" "b" st_a1 = (Raise KeyError, st_a1).
Proof. split_and!; vm_compute; reflexivity. Qed.

(** ** set_prop over an indexed property *)

(** C8 as it is stated fails in its last part: the table keeps the caller's
    dict object, so when one object is stored under ["i"] and under ["j"],
    overwriting ["a"] through ["i"] changes the document of ["j"] as well. *)
Lemma overwrite_reaches_aliased_document :
  stored st_alias "i" = Some [("a", VInt 1)] ∧
  "i" ∈ filed st_alias "a" (VInt 1) ∧
  stored st_alias "j" = Some [("a", VInt 1)] ∧
  stored (SimpleDB.set_prop "i" "a" (VInt 2) false st_alias).2 "j" = Some [("a", VInt 2)] ∧
  ¬ others_untouched "i" st_alias (SimpleDB.set_prop "i" "a" (VInt 2) false st_alias).2.
Proof.
  split_and!; try (vm_compute; reflexivity).
  intros H. specialize (H "j"). vm_compute in H.
  assert (Hne : "j" ≠ "i") by discriminate. apply H in Hne. discriminate.
Qed.

(** C8 (amended).  [set_prop(id_, p, val)] with a hashable [val], on a
    document that has [p] filed under an old value [v0], overwrites [p] in
    the document and files [id_] under [(p, val)]; [id_] stays filed under
    [(p, v0)]; every other entry of the index is as before; the table names
    the same dict objects, every other dict object is as before, and the
    identifiers stored with the very dict object of [id_] see the overwritten
    document too. *)
Theorem set_prop_overwrite_frame st (id_ : ident) l (d : doc) p v0 val :
  el_db st !! id_ = Some l → heap st !! l = Some d →
  doc_get p d = Some v0 → id_ ∈ filed st p v0 → hashable val = true →
  ∃ st',
    SimpleDB.set_prop id_ p val false st = (Ret tt, st') ∧
    stored st' id_ = Some (doc_set p val d) ∧
    doc_get p (doc_set p val d) = Some val ∧
    (∀ q, q ≠ p → doc_get q (doc_set p val d) = doc_get q d) ∧
    filed st' p val = filed st p val ∪ {[id_]} ∧
    id_ ∈ filed st' p v0 ∧
    (∀ q, q ≠ p → prop_db st' !! q = prop_db st !! q) ∧
    (∀ w, w ≠ val → prop_db st' !! p ≫= (.!! w) = prop_db st !! p ≫= (.!! w)) ∧
    el_db st' = el_db st ∧
    (∀ l', l' ≠ l → heap st' !! l' = heap st !! l') ∧
    (∀ j, stored st' j =
          if decide (el_db st !! j = Some l) then Some (doc_set p val d)
          else stored st j).
Proof.
  intros Hi Hl Hg Hin Hh.
  eexists. split; [by apply (set_prop_ok st id_ l d p val false)|].
  split_and!.
  - unfold stored. simpl. rewrite Hi. simpl. by rewrite lookup_insert_eq.
  - by rewrite doc_get_set, decide_True.
  - intros q Hq. rewrite doc_get_set, decide_False; [done | congruence].
  - unfold filed. simpl. by rewrite ids_at_index_add, decide_True.
  - unfold filed. simpl. rewrite ids_at_index_add. case_decide as Hpv.
    + destruct Hpv as [_ <-]. apply elem_of_union. by left.
    + done.
  - intros q Hq. simpl. rewrite index_add_insert. by rewrite lookup_insert_ne.
  - intros w Hw. simpl. rewrite index_add_insert, lookup_insert_eq. simpl.
    rewrite lookup_insert_ne by done.
    by destruct (prop_db st !! p).
  - done.
  - intros l' Hl'. simpl. by rewrite lookup_insert_ne.
  - intros j. apply (stored_written st l (doc_set p val d) j).
Qed.

Lemma set_prop_overwrite_frame_witness :
  el_db st_alias !! "i" = Some 0 ∧ heap st_alias !! 0 = Some [("a", VInt 1)] ∧
  doc_get "a" [("a", VInt 1)] = Some (VInt 1) ∧ "i" ∈ filed st_alias "a" (VInt 1) ∧
  hashable (VInt 2) = true ∧
  ∃ st',
    SimpleDB.set_prop "i" "a" (VInt 2) false st_alias = (Ret tt, st') ∧
    stored st' "i" = Some [("a", VInt 2)] ∧
    "i" ∈ filed st' "a" (VInt 1).
Proof.
  assert (Hin : "i" ∈ filed st_alias "a" (VInt 1)) by (vm_compute; reflexivity).
  split_and!; [vm_compute; reflexivity.. | exact Hin | reflexivity |].
  destruct (set_prop_overwrite_frame st_alias "i" 0 [("a", VInt 1)] "a" (VInt 1) (VInt 2))
    as (st' & Hsp & Hst & _ & _ & _ & Hold & _);
    [vm_compute; reflexivity | vm_compute; reflexivity | reflexivity | exact Hin
    | reflexivity |].
  exists st'. split_and!; [exact Hsp | exact Hst | exact Hold].
Defined.

(** ** load *)

(** C9 as it is stated fails: a blob that holds the document table and no
    property index makes [load] raise [KeyError] after the table has been
    replaced. *)
Lemma load_replaces_table_then_raises :
  SimpleDB.load "db.pkl" (SimpleDB.Blob ∅ (Some ∅) None) st_a1 =
    (Raise KeyError, State heap0 ∅ {[ "a" := {[ VInt 1 := {[ "i" ]} ]} ]} None) ∧
  el_db st_a1 = {[ "i" := 0 ]} ∧
  ¬ load_atomic "db.pkl" (SimpleDB.Blob ∅ (Some ∅) None) st_a1.
Proof.
  assert (Hload : SimpleDB.load "db.pkl" (SimpleDB.Blob ∅ (Some ∅) None) st_a1 =
    (Raise KeyError, State heap0 ∅ {[ "a" := {[ VInt 1 := {[ "i" ]} ]} ]} None))
    by (vm_compute; reflexivity).
  split_and!; [exact Hload | vm_compute; reflexivity |].
  intros Hat. destruct (Hat _ _ Hload) as [He _].
  vm_compute in He. discriminate.
Qed.

(** C9 (amended).  [load] assigns the table, then the index, then the file
    name, and has no way back.  When [open] fails, the stream is no pickle,
    the unpickled object is no mapping or the blob has no document table,
    [load] raises and the table, the index and the file name are as before.
    When the blob holds the table and no index, [load] raises [KeyError]
    with the table replaced and the index as before.  When the blob holds
    both, both are replaced and the file name is recorded. *)
Theorem load_assigns_in_order (file : string) (content : SimpleDB.unpickled) st :
  match content with
  | SimpleDB.Blob objs (Some e) (Some i) =>
      SimpleDB.load file content st = (Ret tt, State (heap st ∪ objs) e i (Some file))
  | SimpleDB.Blob objs (Some e) None =>
      SimpleDB.load file content st =
      (Raise KeyError, State (heap st ∪ objs) e (prop_db st) (fname st))
  | _ =>
      ∃ x st', SimpleDB.load file content st = (Raise x, st') ∧
               el_db st' = el_db st ∧ prop_db st' = prop_db st ∧
               fname st' = fname st ∧ heap st ⊆ heap st'
  end.
Proof.
  destruct content as [| | |objs [e|] [i|]]; try done.
  - by exists IOError, st.
  - by exists UnpicklingError, st.
  - by exists TypeError, st.
  - exists KeyError. eexists. split; [done|]. simpl.
    split_and!; [done..|]. apply map_union_subseteq_l.
  - exists KeyError. eexists. split; [done|]. simpl.
    split_and!; [done..|]. apply map_union_subseteq_l.
Qed.

(** * Further properties of the code *)

(** ** set_prop *)

Section more_set_prop.
Implicit Types (st : state) (p q : prop) (v w val : value) (i j : ident).

Lemma doc_set_twice (d : doc) p v : doc_set p v (doc_set p v d) = doc_set p v d.
Proof. apply doc_set_same. by rewrite doc_get_set, decide_True. Qed.

Lemma index_add_twice (idx : gmap prop (gmap value (gset ident))) p v i :
  SimpleDB.index_add p v i (SimpleDB.index_add p v i idx) = SimpleDB.index_add p v i idx.
Proof.
  rewrite (index_add_insert (SimpleDB.index_add p v i idx)).
  rewrite ids_at_index_add, decide_True by done.
  rewrite index_add_insert, lookup_insert_eq. simpl.
  rewrite !insert_insert_eq. f_equal. f_equal.
  by rewrite <- (assoc_L (∪)), (idemp_L (∪)).
Qed.

Lemma doc_set_truthy (d : doc) p v : truthy (doc_set p v d) = true.
Proof. destruct d as [|[q w] r]; simpl; [done|]. by case_decide. Qed.

Lemma ensure_map_twice (idx : gmap prop (gmap value (gset ident))) p :
  SimpleDB.ensure_map p (SimpleDB.ensure_map p idx) = SimpleDB.ensure_map p idx.
Proof.
  unfold SimpleDB.ensure_map. destruct (idx !! p) as [pm|] eqn:Hp.
  - by rewrite Hp.
  - by rewrite lookup_insert_eq.
Qed.

Lemma ids_at_ensure_map (idx : gmap prop (gmap value (gset ident))) p q w :
  ids_at (SimpleDB.ensure_map p idx) q w = ids_at idx q w.
Proof.
  unfold SimpleDB.ensure_map. destruct (idx !! p) as [pm|] eqn:Hp; [done|].
  rewrite ids_at_insert. case_decide as Hpq; [subst q|done].
  unfold ids_at. by rewrite Hp.
Qed.

Lemma set_prop_raise_cases_aux st (id_ : ident) p val (exclude : bool) e st' :
  SimpleDB.set_prop id_ p val exclude st = (Raise e, st') →
  (e = LookupError ∧ el_db st !! id_ = None ∧ st' = st) ∨
  (e = TypeError ∧ is_Some (el_db st !! id_) ∧
   (hashable_type val = false ∨ stored st id_ = None) ∧ st' = st) ∨
  (e = TypeError ∧ exclude = false ∧ hashable_type val = true ∧ hashable val = false ∧
   ∃ l d, el_db st !! id_ = Some l ∧ heap st !! l = Some d ∧
          st' = State (<[l := doc_set p val d]> (heap st)) (el_db st)
                      (SimpleDB.ensure_map p (prop_db st)) (fname st)).
Proof.
  unfold SimpleDB.set_prop, stored.
  destruct (el_db st !! id_) as [l|] eqn:Hi; simpl.
  - destruct (hashable_type val) eqn:Ht; simpl.
    + destruct (heap st !! l) as [d|] eqn:Hl.
      * destruct exclude; [done|]. destruct (hashable val) eqn:Hh; [done|].
        intros [= <- <-]. right. right. split_and!; [done..|]. by exists l, d.
      * intros [= <- <-]. right. left. split_and!; [done | by eauto | by right | done].
    + intros [= <- <-]. right. left. split_and!; [done | by eauto | by left | done].
  - intros [= <- <-]. by left.
Qed.
End more_set_prop.

(** X1.  When [set_prop] raises, it is in one of three ways.  [LookupError]
    for an identifier that the table does not hold, the store being as
    before.  [TypeError] for a value that fails the type test (a list),
    whatever the exclusion flag, or for a stored object that is no dict, the
    store being as before.  [TypeError] for a value that passes the type
    test and cannot be hashed (a tuple that holds a list), the flag being
    unset: then the document has been written and the index holds a map for
    the property, an empty one if it held none, nothing else having
    changed. *)
Theorem set_prop_raise_cases st (id_ : ident) (p : prop) (val : value)
    (exclude : bool) e st' :
  SimpleDB.set_prop id_ p val exclude st = (Raise e, st') →
  (e = LookupError ∧ el_db st !! id_ = None ∧ st' = st) ∨
  (e = TypeError ∧ is_Some (el_db st !! id_) ∧
   (hashable_type val = false ∨ stored st id_ = None) ∧ st' = st) ∨
  (e = TypeError ∧ exclude = false ∧ hashable_type val = true ∧ hashable val = false ∧
   ∃ l d, el_db st !! id_ = Some l ∧ heap st !! l = Some d ∧
          st' = State (<[l := doc_set p val d]> (heap st)) (el_db st)
                      (SimpleDB.ensure_map p (prop_db st)) (fname st)).
Proof. apply set_prop_raise_cases_aux. Qed.

Lemma set_prop_raise_cases_witness :
  SimpleDB.set_prop "i" "t" tuple_with_list false st_a1 =
    (Raise TypeError,
     State {[ 0 := [("a", VInt 1); ("t", tuple_with_list)] ]} {[ "i" := 0 ]}
           {[ "a" := {[ VInt 1 := {[ "i" ]} ]}; "t" := ∅ ]} None) ∧
  ((TypeError = LookupError ∧ el_db st_a1 !! "i" = None ∧
    State {[ 0 := [("a", VInt 1); ("t", tuple_with_list)] ]} {[ "i" := 0 ]}
          {[ "a" := {[ VInt 1 := {[ "i" ]} ]}; "t" := ∅ ]} None = st_a1) ∨
   (TypeError = TypeError ∧ is_Some (el_db st_a1 !! "i") ∧
    (hashable_type tuple_with_list = false ∨ stored st_a1 "i" = None) ∧
    State {[ 0 := [("a", VInt 1); ("t", tuple_with_list)] ]} {[ "i" := 0 ]}
          {[ "a" := {[ VInt 1 := {[ "i" ]} ]}; "t" := ∅ ]} None = st_a1) ∨
   (TypeError = TypeError ∧ false = false ∧ hashable_type tuple_with_list = true ∧
    hashable tuple_with_list = false ∧
    ∃ l d, el_db st_a1 !! "i" = Some l ∧ heap st_a1 !! l = Some d ∧
           State {[ 0 := [("a", VInt 1); ("t", tuple_with_list)] ]} {[ "i" := 0 ]}
                 {[ "a" := {[ VInt 1 := {[ "i" ]} ]}; "t" := ∅ ]} None =
           State (<[l := doc_set "t" tuple_with_list d]> (heap st_a1)) (el_db st_a1)
                 (SimpleDB.ensure_map "t" (prop_db st_a1)) (fname st_a1))).
Proof.
  assert (H : SimpleDB.set_prop "i" "t" tuple_with_list false st_a1 =
    (Raise TypeError,
     State {[ 0 := [("a", VInt 1); ("t", tuple_with_list)] ]} {[ "i" := 0 ]}
           {[ "a" := {[ VInt 1 := {[ "i" ]} ]}; "t" := ∅ ]} None))
    by (vm_compute; reflexivity).
  split; [exact H|].
  exact (set_prop_raise_cases st_a1 "i" "t" tuple_with_list false TypeError _ H).
Defined.

(** X2.  What [set_prop] writes, [access] reads back: for a stored document
    and a hashable value the call returns, the table holds the same
    identifiers, and [access([id_])] gives the document with the property at
    the new value and every other property as before. *)
Theorem set_prop_then_access st (id_ : ident) (d : doc) (p : prop) (val : value)
    (exclude : bool) :
  stored st id_ = Some d → hashable val = true →
  ∃ st',
    SimpleDB.set_prop id_ p val exclude st = (Ret tt, st') ∧
    el_db st' = el_db st ∧
    SimpleDB.access [id_] st' = (Ret [doc_set p val d], st') ∧
    doc_get p (doc_set p val d) = Some val ∧
    ∀ q, q ≠ p → doc_get q (doc_set p val d) = doc_get q d.
Proof.
  intros (l & Hi & Hl)%stored_Some Hh.
  eexists. split; [by apply (set_prop_ok st id_ l d p val exclude)|].
  split; [done|]. split_and!.
  - unfold SimpleDB.access. simpl. unfold bind.
    rewrite get_copy_stored. unfold stored. simpl. rewrite Hi. simpl.
    rewrite lookup_insert_eq. simpl. by rewrite doc_set_truthy.
  - by rewrite doc_get_set, decide_True.
  - intros q Hq. rewrite doc_get_set, decide_False; [done | congruence].
Qed.

Lemma set_prop_then_access_witness :
  stored st_a1 "i" = Some [("a", VInt 1)] ∧ hashable (VStr "x") = true ∧
  ∃ st',
    SimpleDB.set_prop "i" "b" (VStr "x") true st_a1 = (Ret tt, st') ∧
    el_db st' = el_db st_a1 ∧
    SimpleDB.access ["i"] st' = (Ret [[("a", VInt 1); ("b", VStr "x")]], st') ∧
    doc_get "b" [("a", VInt 1); ("b", VStr "x")] = Some (VStr "x") ∧
    ∀ q, q ≠ "b" → doc_get q [("a", VInt 1); ("b", VStr "x")] = doc_get q [("a", VInt 1)].
Proof.
  assert (Hs : stored st_a1 "i" = Some [("a", VInt 1)]) by (vm_compute; reflexivity).
  split_and!; [exact Hs | reflexivity |].
  exact (set_prop_then_access st_a1 "i" [("a", VInt 1)] "b" (VStr "x") true Hs eq_refl).
Defined.

(** X3.  Repeating a call of [set_prop] changes nothing: the second call has
    the outcome of the first and leaves the store of the first. *)
Theorem set_prop_idempotent st (id_ : ident) (p : prop) (val : value) (exclude : bool) :
  SimpleDB.set_prop id_ p val exclude (SimpleDB.set_prop id_ p val exclude st).2 =
  SimpleDB.set_prop id_ p val exclude st.
Proof.
  destruct (SimpleDB.set_prop id_ p val exclude st) as [[[]|e] st1] eqn:Hsp; simpl.
  - destruct (set_prop_ret _ _ _ _ _ _ Hsp) as (l & d & Hi & Hl & Ht & Hh).
    rewrite (set_prop_pass st id_ l d p val exclude Hi Hl Ht Hh) in Hsp.
    injection Hsp as <-.
    rewrite (set_prop_pass _ id_ l (doc_set p val d) p val exclude); simpl;
      [| done | by rewrite lookup_insert_eq | done | done].
    rewrite doc_set_twice, insert_insert_eq.
    destruct exclude; [done|]. by rewrite index_add_twice.
  - apply set_prop_raise_cases_aux in Hsp
      as [(-> & Hi & ->)|[(-> & Hi & Hc & ->)|(-> & -> & Ht & Hh & l & d & Hi & Hl & ->)]].
    + unfold SimpleDB.set_prop. by rewrite Hi.
    + unfold SimpleDB.set_prop. destruct Hi as [l Hi]. rewrite Hi.
      destruct Hc as [Ht|Hs]; [by rewrite Ht|].
      destruct (negb _); [done|].
      unfold stored in Hs. rewrite Hi in Hs. simpl in Hs. by rewrite Hs.
    + rewrite (set_prop_unhashable _ id_ l (doc_set p val d) p val); simpl;
        [| done | by rewrite lookup_insert_eq | done | done].
      by rewrite doc_set_twice, insert_insert_eq, ensure_map_twice.
Qed.

(** ** add *)

Section more_add.
Implicit Types (st : state) (p q : prop) (v w val : value) (i j : ident).
Implicit Types (exclude : list prop).

Lemma all_hashable_elem (its : doc) :
  all_hashable its = true ↔ ∀ p v, (p, v) ∈ its → hashable v = true.
Proof.
  unfold all_hashable. induction its as [|[q w] its IH]; simpl.
  - split; [by intros _ p v ?%elem_of_nil | done].
  - rewrite andb_true_iff, IH. split.
    + intros [Hw Hall] p v [[= -> ->]|Hin]%elem_of_cons; [done | by apply (Hall p)].
    + intros Hall. split; [apply (Hall q); left | intros p v Hin; apply (Hall p); by right].
Qed.

(** The loop of [add] up to the first item that does not pass: the items
    before it are filed, the document itself is not touched, and the item
    leaves an empty property map behind when its value got as far as being
    hashed. *)
Lemma add_loop_stops st (id_ : ident) l (d : doc) exclude (pre : doc) p v (post : doc) :
  el_db st !! id_ = Some l → heap st !! l = Some d →
  (∀ q w, (q, w) ∈ pre ++ (p, v) :: post → doc_get q d = Some w) →
  (∀ q w, (q, w) ∈ pre → item_passes exclude (q, w) = true) →
  item_passes exclude (p, v) = false →
  for_each (λ '(p, val), SimpleDB.set_prop id_ p val (bool_decide (p ∈ exclude)))
    (pre ++ (p, v) :: post) st =
  (Raise TypeError,
   set_prop_db (if hashable_type v
                then SimpleDB.ensure_map p (index_items exclude id_ pre (prop_db st))
                else index_items exclude id_ pre (prop_db st)) st).
Proof.
  revert st. induction pre as [|[q w] pre IH]; intros st Hi Hl Hits Hpre Hbad.
  - cbn [app for_each]. unfold bind at 1.
    destruct (hashable_type v) eqn:Ht.
    + unfold item_passes in Hbad. simpl in Hbad. rewrite Ht in Hbad. simpl in Hbad.
      apply orb_false_iff in Hbad as [Hex Hh]. rewrite Hex.
      rewrite (set_prop_unhashable st id_ l d p v Hi Hl Ht Hh).
      rewrite doc_set_same by (apply Hits; left). by rewrite insert_id by done.
    + unfold SimpleDB.set_prop. rewrite Hi, Ht. simpl. by destruct st.
  - cbn [app for_each]. unfold bind at 1.
    destruct (proj1 (item_passes_spec exclude q w)) as [Ht Hh]; [apply Hpre; left|].
    rewrite (set_prop_pass st id_ l d q w _ Hi Hl Ht).
    2:{ intros Hn%bool_decide_eq_false. by apply Hh. }
    rewrite doc_set_same by (apply Hits; left). rewrite insert_id by done.
    rewrite IH; simpl; [| done | done | | | done].
    + unfold index_items, set_prop_db. simpl.
      by destruct (bool_decide (q ∈ exclude)).
    + intros q' w' Hin. apply Hits. by right.
    + intros q' w' Hin. apply Hpre. by right.
Qed.

Lemma add_rejected st el exclude (id_ : ident) (d : doc) p v :
  heap st !! el = Some d → last d = Some (p, v) → hashable_type v = false →
  SimpleDB.add el exclude id_ st = (Raise TypeError, st).
Proof.
  intros Hel Hlast Ht. unfold SimpleDB.add.
  by rewrite Hel, add_valid_last, Hlast, Ht.
Qed.

Lemma add_stops st el exclude (id_ : ident) (d pre : doc) p v (post : doc) :
  heap st !! el = Some d → doc_wf d → d = pre ++ (p, v) :: post →
  (∀ q w, last d = Some (q, w) → hashable_type w = true) →
  (∀ q w, (q, w) ∈ pre → item_passes exclude (q, w) = true) →
  item_passes exclude (p, v) = false →
  SimpleDB.add el exclude id_ st =
  (Raise TypeError,
   State (heap st) (<[id_ := el]> (el_db st))
         (if hashable_type v
          then SimpleDB.ensure_map p (index_items exclude id_ pre (prop_db st))
          else index_items exclude id_ pre (prop_db st)) (fname st)).
Proof.
  intros Hel Hwf Hd Hlast Hpre Hbad. unfold SimpleDB.add. rewrite Hel, add_valid_last.
  destruct (last d) as [[q w]|] eqn:Hl.
  - rewrite (Hlast q w eq_refl). simpl.
    unfold bind at 1. simpl. unfold bind at 1. rewrite Hd.
    rewrite (add_loop_stops _ id_ el d); simpl;
      [done | by rewrite lookup_insert_eq | done | | done | done].
    intros q' w' Hin. apply doc_get_of_elem; [done | by rewrite Hd].
  - apply last_None in Hl. subst d. by destruct pre.
Qed.
End more_add.

(** X4.  [add] in full, for a dict with distinct keys.  An item passes when
    its value passes the type test and, unless its property is excluded,
    can be hashed.  The check looks at the last item alone: when the value of
    the last item fails the type test the call raises [TypeError] and the
    store is as before.  When every item passes, the call returns [id_], the
    document enters the table under it and the items that are not excluded
    are filed.  Otherwise the last item passes the type test and some item
    does not pass: the document enters the table, the items before the first
    such item are filed, and the call raises [TypeError]; if the value of
    that item passed the type test the index moreover holds a map for its
    property, an empty one if it held none. *)
Theorem add_outcome st el (exclude : list prop) (id_ : ident) (d : doc) :
  heap st !! el = Some d → doc_wf d →
  (∀ p v, last d = Some (p, v) → hashable_type v = false →
     SimpleDB.add el exclude id_ st = (Raise TypeError, st)) ∧
  ((∀ p v, (p, v) ∈ d → item_passes exclude (p, v) = true) →
     SimpleDB.add el exclude id_ st = (Ret id_, added st el exclude id_ d)) ∧
  (∀ pre p v post, d = pre ++ (p, v) :: post →
     (∀ q w, last d = Some (q, w) → hashable_type w = true) →
     (∀ q w, (q, w) ∈ pre → item_passes exclude (q, w) = true) →
     item_passes exclude (p, v) = false →
     SimpleDB.add el exclude id_ st =
     (Raise TypeError,
      State (heap st) (<[id_ := el]> (el_db st))
            (if hashable_type v
             then SimpleDB.ensure_map p (index_items exclude id_ pre (prop_db st))
             else index_items exclude id_ pre (prop_db st)) (fname st))).
Proof.
  intros Hel Hwf. split_and!.
  - intros p v. by apply add_rejected.
  - by apply add_pass.
  - intros pre p v post. by apply add_stops.
Qed.

Lemma add_outcome_witness :
  heap (init heap_tuple) !! 0 = Some [("a", VInt 1); ("t", tuple_with_list)] ∧
  doc_wf [("a", VInt 1); ("t", tuple_with_list)] ∧
  item_passes [] ("a", VInt 1) = true ∧
  item_passes [] ("t", tuple_with_list) = false ∧
  SimpleDB.add 0 [] "i" (init heap_tuple) =
    (Raise TypeError,
     State heap_tuple {[ "i" := 0 ]}
           (SimpleDB.ensure_map "t" (index_items [] "i" [("a", VInt 1)] ∅)) None) ∧
  SimpleDB.ensure_map "t" (index_items [] "i" [("a", VInt 1)] ∅) =
    {[ "a" := {[ VInt 1 := {[ "i" ]} ]}; "t" := ∅ ]}.
Proof.
  assert (Hwf : doc_wf [("a", VInt 1); ("t", tuple_with_list)]).
  { apply (bool_decide_unpack _). vm_compute. exact I. }
  assert (Hlast : ∀ q w, last [("a", VInt 1); ("t", tuple_with_list)] = Some (q, w) →
                         hashable_type w = true).
  { intros q w [= <- <-]. reflexivity. }
  assert (Hpre : ∀ q w, (q, w) ∈ [("a", VInt 1)] → item_passes [] (q, w) = true).
  { intros q w [= -> ->]%list_elem_of_singleton. reflexivity. }
  split_and!; [reflexivity | exact Hwf | reflexivity | reflexivity | | vm_compute; reflexivity].
  exact (proj2 (proj2 (add_outcome (init heap_tuple) 0 [] "i"
                         [("a", VInt 1); ("t", tuple_with_list)] eq_refl Hwf))
           [("a", VInt 1)] "t" tuple_with_list [] eq_refl Hlast Hpre eq_refl).
Defined.

(** X5.  What a successful [add] leaves, for a dict with distinct keys and
    hashable values: the identifier is returned and names the document, no
    other document changes, the table grows by one for a new identifier and
    keeps its size for one it held, [access([id_])] gives the document back
    (nothing for an empty one), and the index gains exactly [id_] under every
    pair of the document whose property is not excluded. *)
Theorem add_then_access st el (exclude : list prop) (id_ : ident) (d : doc) :
  heap st !! el = Some d → doc_wf d →
  (∀ p v, (p, v) ∈ d → hashable v = true) →
  ∃ st',
    SimpleDB.add el exclude id_ st = (Ret id_, st') ∧
    heap st' = heap st ∧
    stored st' id_ = Some d ∧
    (∀ j, j ≠ id_ → stored st' j = stored st j) ∧
    (SimpleDB.size st').1 =
      Ret (if decide (el_db st !! id_ = None) then S (size (el_db st))
           else size (el_db st)) ∧
    SimpleDB.access [id_] st' = (Ret (if truthy d then [d] else []), st') ∧
    (∀ q w i, i ∈ filed st' q w ↔
              i ∈ filed st q w ∨ (i = id_ ∧ doc_get q d = Some w ∧ q ∉ exclude)).
Proof.
  intros Hel Hwf Hh. exists (added st el exclude id_ d).
  split; [by apply add_ok|]. split; [done|].
  assert (Hst : stored (added st el exclude id_ d) id_ = Some d).
  { by rewrite stored_added, decide_True. }
  split_and!.
  - done.
  - intros j Hj. by rewrite stored_added, decide_False.
  - unfold SimpleDB.size. simpl. f_equal. case_decide as Hi.
    + by apply map_size_insert_None.
    + apply map_size_insert_Some. by destruct (el_db st !! id_).
  - unfold SimpleDB.access. simpl. unfold bind. rewrite get_copy_stored, Hst.
    simpl. by destruct (truthy d).
  - intros q w i. rewrite filed_added. split.
    + intros [?|(-> & Hin & Hq)]; [by left|]. right.
      split_and!; [done | by apply doc_get_of_elem | done].
    + intros [?|(-> & Hg & Hq)]; [by left|]. right.
      split_and!; [done | by apply doc_get_elem | done].
Qed.

Lemma add_then_access_witness :
  heap (init heap_people) !! 0 = Some [("name", VStr "a"); ("age", VInt 30)] ∧
  doc_wf [("name", VStr "a"); ("age", VInt 30)] ∧
  (∀ p v, (p, v) ∈ [("name", VStr "a"); ("age", VInt 30)] → hashable v = true) ∧
  ∃ st',
    SimpleDB.add 0 ["name"] "i" (init heap_people) = (Ret "i", st') ∧
    stored st' "i" = Some [("name", VStr "a"); ("age", VInt 30)] ∧
    SimpleDB.access ["i"] st' = (Ret [[("name", VStr "a"); ("age", VInt 30)]], st').
Proof.
  assert (Hwf : doc_wf [("name", VStr "a"); ("age", VInt 30)]).
  { apply (bool_decide_unpack _). vm_compute. exact I. }
  assert (Hh : ∀ p v, (p, v) ∈ [("name", VStr "a"); ("age", VInt 30)] → hashable v = true).
  { apply all_hashable_elem. reflexivity. }
  split_and!; [reflexivity | exact Hwf | exact Hh |].
  destruct (add_then_access (init heap_people) 0 ["name"] "i"
              [("name", VStr "a"); ("age", VInt 30)] eq_refl Hwf Hh)
    as (st' & Hadd & _ & Hst & _ & _ & Hacc & _).
  exists st'. split_and!; [exact Hadd | exact Hst | exact Hacc].
Defined.

(** ** query, query_prop and access *)

Section more_query.
Implicit Types (st : state) (p q : prop) (v w val : value) (i j : ident).
Implicit Types (test : test_fn) (kvs : list (value * gset ident)).

Lemma query_scan_total test val kvs (acc : gset ident) :
  (∀ v ids, (v, ids) ∈ kvs → ∃ b, test v val = Ret b) →
  ∃ matches, SimpleDB.query_scan test val kvs acc = Ret matches ∧
    ∀ i, i ∈ matches ↔
         i ∈ acc ∨ ∃ v ids, (v, ids) ∈ kvs ∧ test v val = Ret true ∧ i ∈ ids.
Proof.
  revert acc. induction kvs as [|[w ids'] kvs IH]; intros acc Htot; simpl.
  - exists acc. split; [done|]. intros i. split; [by left|].
    by intros [?|(? & ? & ?%elem_of_nil & _)].
  - destruct (Htot w ids') as [b Hb]; [left|]. rewrite Hb.
    destruct (IH (if b then acc ∪ ids' else acc)) as (m & -> & Hm).
    { intros v ids Hin. apply (Htot v ids). by right. }
    exists m. split; [done|]. intros i. rewrite Hm. split.
    + intros [Hi|(v & ids & Hin & Ht & Hi)].
      * destruct b; [|by left].
        apply elem_of_union in Hi as [?|?]; [by left|].
        right. exists w, ids'. split_and!; [left | done | done].
      * right. exists v, ids. split_and!; [by right | done | done].
    + intros [Hi|(v & ids & [[= -> ->]|Hin]%elem_of_cons & Ht & Hi)].
      * left. destruct b; [apply elem_of_union; by left | done].
      * left. rewrite Ht in Hb. injection Hb as <-. apply elem_of_union. by right.
      * right. by exists v, ids.
Qed.

Lemma query_scan_raises test val kvs (acc : gset ident) v ids e :
  (v, ids) ∈ kvs → test v val = Raise e →
  ∃ v' ids' e', (v', ids') ∈ kvs ∧ test v' val = Raise e' ∧
                SimpleDB.query_scan test val kvs acc = Raise e'.
Proof.
  revert acc. induction kvs as [|[w ids0] kvs IH]; intros acc Hin Ht.
  - by apply elem_of_nil in Hin.
  - simpl. destruct (test w val) as [b|e0] eqn:Hw.
    + apply elem_of_cons in Hin as [[= -> ->]|Hin]; [congruence|].
      destruct (IH (if b then acc ∪ ids0 else acc) Hin Ht) as (v' & ids' & e' & Hin' & Ht' & ->).
      exists v', ids', e'. split_and!; [by right | done | done].
    + exists w, ids0, e0. split_and!; [left | done | done].
Qed.

Lemma access_from_state st (res : list doc) (ids : list ident) :
  (SimpleDB.access_from res ids st).2 = st.
Proof.
  revert res. induction ids as [|i ids IH]; intros res; [done|].
  simpl. unfold bind. rewrite get_copy_stored.
  destruct (stored st i); [apply IH | done].
Qed.

Lemma set_iter_perm (s : gset ident) : set_iter s ≡ₚ elements s.
Proof. unfold set_iter. apply (proj2_sig set_iter_exists). Qed.

Lemma elem_of_set_iter (s : gset ident) i : i ∈ set_iter s ↔ i ∈ s.
Proof. rewrite set_iter_perm. apply elem_of_elements. Qed.

Lemma set_iter_empty : set_iter ∅ = [].
Proof. apply Permutation_nil_r. by rewrite set_iter_perm, elements_empty. Qed.

Lemma resolve_state st (a : bool) (matches : gset ident) :
  (SimpleDB.resolve a matches st).2 = st.
Proof.
  unfold SimpleDB.resolve. destruct a; [|done].
  unfold bind, SimpleDB.access.
  pose proof (access_from_state st [] (set_iter matches)) as Hst.
  destruct (SimpleDB.access_from [] (set_iter matches) st) as [[l|e] st1];
    simpl in *; by subst.
Qed.

Lemma query_matches_eq st p val :
  match prop_db st !! p with
  | None => Ret ∅
  | Some pm => SimpleDB.query_scan db_queries.eq val (map_to_list pm) ∅
  end = Ret (filed st p val).
Proof.
  unfold filed, ids_at.
  destruct (prop_db st !! p) as [pm|]; simpl; [|done].
  destruct (pm !! val) as [ids|] eqn:Hv; simpl.
  - rewrite (query_scan_eq_hit _ val ids).
    + by rewrite (left_id_L ∅ (∪)).
    + apply NoDup_fst_map_to_list.
    + by apply elem_of_map_to_list.
  - rewrite query_scan_eq_miss; [done|].
    intros [[w ids] [Hw Hin]]%list_elem_of_fmap. simpl in Hw. subst w.
    apply elem_of_map_to_list in Hin. congruence.
Qed.
End more_query.

Lemma query_total_scan st (p : prop) (test : test_fn) (val : value) :
  (∀ v ids, prop_db st !! p ≫= (.!! v) = Some ids → ∃ b, test v val = Ret b) →
  ∃ matches,
    SimpleDB.query p test val false st = (Ret (SimpleDB.Ids matches), st) ∧
    ∀ i, i ∈ matches ↔ ∃ v, test v val = Ret true ∧ i ∈ filed st p v.
Proof.
  intros Htot. unfold SimpleDB.query, bind, get_state, lift, filed, ids_at. simpl.
  destruct (prop_db st !! p) as [pm|] eqn:Hp; simpl.
  - destruct (query_scan_total test val (map_to_list pm) ∅) as (m & -> & Hm).
    { intros v ids Hin%elem_of_map_to_list. apply (Htot v ids). by simpl. }
    exists m. split; [done|]. intros i. rewrite Hm. split.
    + intros [?%not_elem_of_empty|(v & ids & Hin%elem_of_map_to_list & Ht & Hi)]; [done|].
      exists v. split; [done|]. by rewrite Hin.
    + intros (v & Ht & Hi). right.
      destruct (pm !! v) as [ids|] eqn:Hv; simpl in Hi;
        [|by apply not_elem_of_empty in Hi].
      exists v, ids. split_and!; [by apply elem_of_map_to_list | done | done].
  - exists ∅. split; [done|]. intros i. split; [by intros ?%not_elem_of_empty|].
    by intros (v & _ & ?%not_elem_of_empty).
Qed.

(** X6.  [query] with any test function that returns on the values indexed
    under the property: the result is exactly the identifiers filed under
    some value on which the test holds, and the store is as before. *)
Theorem query_total_test st (p : prop) (test : test_fn) (val : value) :
  (∀ v ids, prop_db st !! p ≫= (.!! v) = Some ids → ∃ b, test v val = Ret b) →
  ∃ matches,
    SimpleDB.query p test val false st = (Ret (SimpleDB.Ids matches), st) ∧
    ∀ i, i ∈ matches ↔ ∃ v, test v val = Ret true ∧ i ∈ filed st p v.
Proof. apply query_total_scan. Qed.

Lemma query_total_test_witness :
  (∀ v ids, prop_db st_people !! "name" ≫= (.!! v) = Some ids →
            ∃ b, db_queries.ne v (VStr "a") = Ret b) ∧
  ∃ matches,
    SimpleDB.query "name" db_queries.ne (VStr "a") false st_people
      = (Ret (SimpleDB.Ids matches), st_people) ∧
    ∀ i, i ∈ matches ↔
         ∃ v, db_queries.ne v (VStr "a") = Ret true ∧ i ∈ filed st_people "name" v.
Proof.
  assert (Htot : ∀ v ids, prop_db st_people !! "name" ≫= (.!! v) = Some ids →
                          ∃ b, db_queries.ne v (VStr "a") = Ret b).
  { intros v ids _. by eexists. }
  split; [exact Htot|].
  exact (query_total_test st_people "name" db_queries.ne (VStr "a") Htot).
Defined.

(** X7.  When the test function raises on a value indexed under the
    property, [query] raises an exception of the test, with or without
    [access], and the store is as before. *)
Theorem query_propagates_test_error st (p : prop) (test : test_fn) (val : value)
    (a : bool) v ids e :
  prop_db st !! p ≫= (.!! v) = Some ids → test v val = Raise e →
  ∃ v' e', is_Some (prop_db st !! p ≫= (.!! v')) ∧ test v' val = Raise e' ∧
           SimpleDB.query p test val a st = (Raise e', st).
Proof.
  intros Hv Ht. unfold SimpleDB.query, bind, get_state, lift. simpl.
  destruct (prop_db st !! p) as [pm|] eqn:Hp; simpl in *; [|done].
  destruct (query_scan_raises test val (map_to_list pm) ∅ v ids e)
    as (v' & ids' & e' & Hin & Ht' & ->); [by apply elem_of_map_to_list | done |].
  exists v', e'. split_and!; [|done|done].
  apply elem_of_map_to_list in Hin. rewrite Hin. by eexists.
Qed.

Lemma query_propagates_test_error_witness :
  prop_db st_people !! "age" ≫= (.!! VInt 30) = Some {[ "i1"; "i2" ]} ∧
  has_length (VInt 30) (VInt 0) = Raise TypeError ∧
  ∃ v' e', is_Some (prop_db st_people !! "age" ≫= (.!! v')) ∧
           has_length v' (VInt 0) = Raise e' ∧
           SimpleDB.query "age" has_length (VInt 0) true st_people = (Raise e', st_people).
Proof.
  assert (Hv : prop_db st_people !! "age" ≫= (.!! VInt 30) = Some {[ "i1"; "i2" ]})
    by (vm_compute; reflexivity).
  split_and!; [exact Hv | reflexivity |].
  exact (query_propagates_test_error st_people "age" has_length (VInt 0) true
           (VInt 30) {[ "i1"; "i2" ]} TypeError Hv eq_refl).
Defined.

(** X8.  [eq] and [ne] split the identifiers of a property: for any value,
    the two results together are the identifiers filed under the property at
    any value, and when the index is sound no identifier is in both. *)
Theorem query_eq_ne_split st (p : prop) (val : value) :
  ∃ same other,
    SimpleDB.query p db_queries.eq val false st = (Ret (SimpleDB.Ids same), st) ∧
    SimpleDB.query p db_queries.ne val false st = (Ret (SimpleDB.Ids other), st) ∧
    (∀ i, i ∈ same ∪ other ↔ ∃ v, i ∈ filed st p v) ∧
    (index_sound st → same ## other).
Proof.
  destruct (query_total_scan st p db_queries.ne val) as (other & Hne & Hother).
  { intros v ids _. by eexists. }
  exists (filed st p val), other.
  split; [apply query_eq_filed|]. split; [done|]. split.
  - intros i. rewrite elem_of_union, Hother. split.
    + intros [?|(v & _ & ?)]; [by exists val | by exists v].
    + intros (v & Hi). destruct (decide (v = val)) as [->|Hv]; [by left|].
      right. exists v. split; [|done].
      unfold db_queries.ne. by rewrite bool_decide_eq_false_2.
  - intros Hs i Hi (v & Ht & Hi')%Hother.
    destruct (Hs p val i Hi) as (d & Hd & Hg).
    destruct (Hs p v i Hi') as (d' & Hd' & Hg').
    rewrite Hd in Hd'. injection Hd' as <-. rewrite Hg in Hg'. injection Hg' as <-.
    unfold db_queries.ne in Ht. by rewrite bool_decide_eq_true_2 in Ht.
Qed.

(** X9.  The reading methods never write: whatever the identifiers, the
    property, the test function and the [access] flag, and whether they
    return or raise, [access], [query], [query_prop] and [size] leave the
    store as it was. *)
Theorem reads_leave_store :
  (∀ ids st, (SimpleDB.access ids st).2 = st) ∧
  (∀ p test val a st, (SimpleDB.query p test val a st).2 = st) ∧
  (∀ p a st, (SimpleDB.query_prop p a st).2 = st) ∧
  (∀ st, (SimpleDB.size st).2 = st).
Proof.
  split_and!.
  - intros ids st. apply access_from_state.
  - intros p test val a st. unfold SimpleDB.query, bind, get_state, lift. simpl.
    destruct (match prop_db st !! p with
              | Some pm => SimpleDB.query_scan test val (map_to_list pm) ∅
              | None => Ret ∅
              end) as [m|e]; [apply resolve_state | done].
  - intros p a st. unfold SimpleDB.query_prop, bind, get_state, lift. simpl.
    destruct (match prop_db st !! p with
              | Some pm => SimpleDB.update_with_sets ∅ (map_to_list pm).*2
              | None => Ret ∅
              end) as [m|e]; [apply resolve_state | done].
  - done.
Qed.

(** X10.  [query] with [access] set, on a sound index: the call returns
    the stored documents of the identifiers filed under the value, in the
    order in which the set happens to be iterated, one document for each
    identifier, and each of them has the property at that value. *)
Theorem query_resolved st (p : prop) (val : value) :
  index_sound st →
  ∃ docs,
    SimpleDB.query p db_queries.eq val true st = (Ret (SimpleDB.Docs docs), st) ∧
    docs ≡ₚ omap (stored st) (elements (filed st p val)) ∧
    length docs = size (filed st p val) ∧
    Forall (λ d, doc_get p d = Some val) docs.
Proof.
  intros Hs.
  assert (Hall : ∀ l : list ident, (∀ i, i ∈ l → i ∈ filed st p val) →
            length (omap (stored st) l) = length l ∧
            Forall (λ d, doc_get p d = Some val) (omap (stored st) l) ∧
            filter (λ d, truthy d) (omap (stored st) l) = omap (stored st) l).
  { induction l as [|i l IH]; intros Hl; [done|].
    destruct (Hs p val i) as (d & Hd & Hg); [apply Hl; left|].
    destruct IH as (Hlen & Hfa & Hfi); [intros j Hj; apply Hl; by right|].
    assert (Hom : omap (stored st) (i :: l) = d :: omap (stored st) l)
      by (by csimpl; rewrite Hd).
    rewrite Hom. split_and!.
    - simpl. by rewrite Hlen.
    - by constructor.
    - rewrite filter_cons_True; [by rewrite Hfi|].
      destruct d; [done | exact I]. }
  destruct (Hall (set_iter (filed st p val))) as (Hlen & Hfa & Hfi).
  { intros i. by rewrite elem_of_set_iter. }
  exists (omap (stored st) (set_iter (filed st p val))). split_and!; [| | |done].
  - unfold SimpleDB.query, bind, get_state, lift. simpl.
    rewrite query_matches_eq. unfold SimpleDB.resolve, bind.
    rewrite access_present.
    + by rewrite Hfi.
    + intros i Hi%elem_of_set_iter. destruct (Hs p val i Hi) as (d & -> & _). by eexists.
  - by rewrite set_iter_perm.
  - rewrite Hlen. by rewrite set_iter_perm.
Qed.

Lemma query_resolved_witness :
  index_sound st_a1 ∧
  ∃ docs,
    SimpleDB.query "a" db_queries.eq (VInt 1) true st_a1 = (Ret (SimpleDB.Docs docs), st_a1) ∧
    docs ≡ₚ omap (stored st_a1) (elements (filed st_a1 "a" (VInt 1))) ∧
    length docs = size (filed st_a1 "a" (VInt 1)) ∧
    Forall (λ d, doc_get "a" d = Some (VInt 1)) docs.
Proof.
  assert (Hs : index_sound st_a1).
  { assert (Hord : orderly [Add 0 [] "i"] (init heap0)).
    { simpl. split_and!; try exact I; vm_compute; reflexivity. }
    assert (Hwf : heap_wf heap0).
    { apply (bool_decide_unpack _). vm_compute. exact I. }
    destruct (consistent_run [Add 0 [] "i"] (init heap0) ∅) as (_ & H & _);
      [by apply consistent_init | done |].
    exact H. }
  split; [exact Hs|].
  exact (query_resolved st_a1 "a" (VInt 1) Hs).
Defined.

Lemma omap_length_le {A B} (f : A → option B) (l : list A) :
  (length (omap f l) ≤ length l)%nat.
Proof.
  induction l as [|x l IH]; csimpl; [done|].
  destruct (f x); simpl; lia.
Qed.

(** X11.  [access] on identifiers that are all stored returns their
    documents in the order of the sequence, repetitions kept and empty
    documents left out, so the result is never longer than the sequence; one
    identifier that is not stored makes the whole call raise
    [AttributeError], whatever the others are. *)
Theorem access_outcome st (ids : list ident) :
  ((∀ i, i ∈ ids → is_Some (stored st i)) →
   ∃ docs, SimpleDB.access ids st = (Ret docs, st) ∧
           docs = filter (λ d, truthy d) (omap (stored st) ids) ∧
           (length docs ≤ length ids)%nat) ∧
  (∀ i, i ∈ ids → stored st i = None →
        SimpleDB.access ids st = (Raise AttributeError, st)).
Proof.
  split.
  - intros Hall. eexists. split; [by apply (access_from_present st [] ids)|].
    split; [done|]. simpl.
    etrans; [apply length_filter|]. apply omap_length_le.
  - intros i Hin Hi. by apply (access_from_missing st [] ids i).
Qed.

Lemma access_outcome_witness :
  (∀ i, i ∈ ["i"; "e"; "i"] → is_Some (stored st_empty_doc i)) ∧
  ∃ docs, SimpleDB.access ["i"; "e"; "i"] st_empty_doc = (Ret docs, st_empty_doc) ∧
          docs = filter (λ d, truthy d) (omap (stored st_empty_doc) ["i"; "e"; "i"]) ∧
          (length docs ≤ length ["i"; "e"; "i"])%nat.
Proof.
  assert (Hall : ∀ i, i ∈ ["i"; "e"; "i"] → is_Some (stored st_empty_doc i)).
  { intros i Hi. repeat (apply elem_of_cons in Hi as [->|Hi]);
      [by eexists; vm_compute; reflexivity.. | by apply elem_of_nil in Hi]. }
  split; [exact Hall|].
  exact (proj1 (access_outcome st_empty_doc ["i"; "e"; "i"]) Hall).
Defined.

(** X12.  [query_prop], with or without [access]: a property that the index
    does not hold gives the empty result, and a property with at least one
    indexed value makes the call raise [TypeError] before anything is
    resolved. *)
Theorem query_prop_outcome st (p : prop) (a : bool) :
  (prop_db st !! p = None →
   SimpleDB.query_prop p a st =
   (Ret (if a then SimpleDB.Docs [] else SimpleDB.Ids ∅), st)) ∧
  (∀ pm, prop_db st !! p = Some pm → pm ≠ ∅ →
         SimpleDB.query_prop p a st = (Raise TypeError, st)).
Proof.
  split.
  - intros Hp. unfold SimpleDB.query_prop, bind, get_state, lift. rewrite Hp. simpl.
    destruct a; [|done].
    unfold SimpleDB.resolve, bind, SimpleDB.access. by rewrite set_iter_empty.
  - intros pm Hp Hne. unfold SimpleDB.query_prop, bind, get_state, lift. rewrite Hp.
    destruct (map_to_list pm) as [|[v ids] r] eqn:Hl; [|done].
    by apply map_to_list_empty_iff in Hl.
Qed.

Lemma query_prop_outcome_witness :
  prop_db st_people !! "age" = Some {[ VInt 30 := {[ "i1"; "i2" ]} ]} ∧
  ({[ VInt 30 := {[ "i1"; "i2" ]} ]} : gmap value (gset ident)) ≠ ∅ ∧
  SimpleDB.query_prop "age" true st_people = (Raise TypeError, st_people).
Proof.
  assert (Hp : prop_db st_people !! "age" = Some {[ VInt 30 := {[ "i1"; "i2" ]} ]})
    by (vm_compute; reflexivity).
  assert (Hne : ({[ VInt 30 := {[ "i1"; "i2" ]} ]} : gmap value (gset ident)) ≠ ∅)
    by apply insert_non_empty.
  split_and!; [exact Hp | exact Hne |].
  exact (proj2 (query_prop_outcome st_people "age" true) _ Hp Hne).
Defined.

(** ** remove, remove_prop and replace *)

(** X13.  [remove] returns on one kind of identifier only, the one stored
    with an empty document, which it takes out of the table; on any other
    stored document it raises [AttributeError], on an identifier that the
    table does not hold [LookupError], and whenever it raises the store is as
    before.  It never writes the index. *)
Theorem remove_outcome st (id_ : ident) :
  (∀ st', SimpleDB.remove id_ st = (Ret tt, st') ↔
          stored st id_ = Some [] ∧ st' = set_el_db (delete id_ (el_db st)) st) ∧
  (el_db st !! id_ = None → SimpleDB.remove id_ st = (Raise LookupError, st)) ∧
  (∀ d, stored st id_ = Some d → d ≠ [] →
        SimpleDB.remove id_ st = (Raise AttributeError, st)) ∧
  (∀ e st', SimpleDB.remove id_ st = (Raise e, st') → st' = st) ∧
  prop_db (SimpleDB.remove id_ st).2 = prop_db st.
Proof.
  split_and!.
  - intros st'. split; [apply remove_ret|]. intros [Hs ->]. by apply remove_empty.
  - apply remove_absent.
  - apply remove_nonempty.
  - intros e st'. unfold SimpleDB.remove.
    destruct (el_db st !! id_) as [l|]; [|by intros [= <- <-]].
    destruct (heap st !! l) as [[|x d]|]; [done | by intros [= <- <-] | by intros [= <- <-]].
  - apply remove_prop_db.
Qed.

Lemma remove_outcome_witness :
  stored st_empty_doc "e" = Some [] ∧
  SimpleDB.remove "e" st_empty_doc =
    (Ret tt, set_el_db (delete "e" (el_db st_empty_doc)) st_empty_doc) ∧
  (SimpleDB.size (SimpleDB.remove "e" st_empty_doc).2).1 = Ret 1 ∧
  (SimpleDB.size st_empty_doc).1 = Ret 2.
Proof.
  assert (Hs : stored st_empty_doc "e" = Some []) by (vm_compute; reflexivity).
  split_and!; [exact Hs | | vm_compute; reflexivity..].
  exact (proj2 (proj1 (remove_outcome st_empty_doc "e") _) (conj Hs eq_refl)).
Defined.

(** X14.  [remove_prop] on a property that the document has: the property
    leaves the document whether the call returns or raises, the index and the
    identifiers of the table are never written, and the call returns exactly
    when the index holds no value under the property (an excluded property);
    otherwise it raises [TypeError] from [query_prop], the entry of the
    identifier staying in the index.  On an identifier that the table does
    not hold it raises [LookupError], on a property that the document does
    not have [KeyError], the store being as before. *)
Theorem remove_prop_outcome st (id_ : ident) (p : prop) :
  (∀ d v, stored st id_ = Some d → doc_get p d = Some v →
     stored (SimpleDB.remove_prop id_ p st).2 id_ = Some (doc_del p d) ∧
     prop_db (SimpleDB.remove_prop id_ p st).2 = prop_db st ∧
     el_db (SimpleDB.remove_prop id_ p st).2 = el_db st ∧
     (prop_db st !! p = None ∨ prop_db st !! p = Some ∅ →
      (SimpleDB.remove_prop id_ p st).1 = Ret tt) ∧
     (∀ pm, prop_db st !! p = Some pm → pm ≠ ∅ →
      (SimpleDB.remove_prop id_ p st).1 = Raise TypeError)) ∧
  (el_db st !! id_ = None →
   SimpleDB.remove_prop id_ p st = (Raise LookupError, st)) ∧
  (∀ d, stored st id_ = Some d → doc_get p d = None →
   SimpleDB.remove_prop id_ p st = (Raise KeyError, st)).
Proof.
  split_and!; [|apply remove_prop_absent|apply remove_prop_no_prop].
  intros d v (l & Hi & Hl)%stored_Some Hg.
  assert (Hcases : SimpleDB.remove_prop id_ p st =
            (match prop_db st !! p with
             | None => Ret tt
             | Some pm => if decide (pm = ∅) then Ret tt else Raise TypeError
             end, set_heap (<[l := doc_del p d]> (heap st)) st)).
  { destruct (prop_db st !! p) as [pm|] eqn:Hp.
    - case_decide as Hpm.
      + subst pm. unfold SimpleDB.remove_prop. rewrite Hi, Hl, Hg.
        unfold bind at 1. simpl. unfold bind at 1.
        unfold SimpleDB.query_prop, bind, get_state, lift. simpl. rewrite Hp.
        rewrite map_to_list_empty. simpl.
        by rewrite decide_False by apply not_elem_of_empty.
      + by apply (remove_prop_indexed st id_ p l d v pm).
    - by apply (remove_prop_unindexed st id_ p l d v). }
  rewrite Hcases. simpl. split_and!.
  - by rewrite stored_written, decide_True.
  - done.
  - done.
  - intros [->| ->]; [done|]. by rewrite decide_True.
  - intros pm -> Hne. by rewrite decide_False.
Qed.

Lemma remove_prop_outcome_witness :
  stored st_people "i2" = Some [("name", VStr "b"); ("age", VInt 30)] ∧
  doc_get "age" [("name", VStr "b"); ("age", VInt 30)] = Some (VInt 30) ∧
  stored (SimpleDB.remove_prop "i2" "age" st_people).2 "i2" = Some [("name", VStr "b")] ∧
  prop_db (SimpleDB.remove_prop "i2" "age" st_people).2 = prop_db st_people ∧
  (SimpleDB.remove_prop "i2" "age" st_people).1 = Raise TypeError.
Proof.
  assert (Hs : stored st_people "i2" = Some [("name", VStr "b"); ("age", VInt 30)])
    by (vm_compute; reflexivity).
  destruct (proj1 (remove_prop_outcome st_people "i2" "age") _ _ Hs eq_refl)
    as (Hst & Hidx & _ & _ & Hraise).
  split_and!; [exact Hs | reflexivity | exact Hst | exact Hidx |].
  apply (Hraise {[ VInt 30 := {[ "i1"; "i2" ]} ]});
    [vm_compute; reflexivity | apply insert_non_empty].
Defined.

(** X15.  [replace] is [remove] and then [add] under the same identifier, so
    it gets as far as [add] only for a stored empty document: there it
    returns, the identifier names the new document and the table keeps its
    size.  On any other stored document it raises [AttributeError], on an
    identifier that the table does not hold [LookupError], and in both cases
    nothing is removed and nothing is added. *)
Theorem replace_outcome st (id_ : ident) el (exclude : list prop) :
  (el_db st !! id_ = None →
   SimpleDB.replace id_ el exclude st = (Raise LookupError, st)) ∧
  (∀ d0, stored st id_ = Some d0 → d0 ≠ [] →
   SimpleDB.replace id_ el exclude st = (Raise AttributeError, st)) ∧
  (∀ d, stored st id_ = Some [] → heap st !! el = Some d → doc_wf d →
        (∀ p v, (p, v) ∈ d → hashable v = true) →
   ∃ st', SimpleDB.replace id_ el exclude st = (Ret tt, st') ∧
          stored st' id_ = Some d ∧
          size (el_db st') = size (el_db st) ∧
          (∀ j, j ≠ id_ → stored st' j = stored st j)).
Proof.
  split_and!.
  - intros Hi. unfold SimpleDB.replace, bind. by rewrite remove_absent.
  - intros d0 Hs Hne. unfold SimpleDB.replace, bind.
    by rewrite (remove_nonempty st id_ d0).
  - intros d Hs Hel Hwf Hh. unfold SimpleDB.replace. unfold bind at 1.
    rewrite remove_empty by done. unfold bind.
    rewrite (add_ok _ el exclude id_ d) by done.
    eexists. split; [done|]. split_and!.
    + rewrite stored_added by done. by rewrite decide_True.
    + simpl. rewrite map_size_insert_None by apply lookup_delete_eq.
      apply stored_Some in Hs as (l & Hi & _).
      rewrite map_size_delete, Hi.
      assert (size (el_db st) ≠ 0); [|lia].
      intros Hz%map_size_empty_iff. by rewrite Hz, lookup_empty in Hi.
    + intros j Hj. rewrite stored_added by done. rewrite decide_False by done.
      unfold stored. simpl. by rewrite lookup_delete_ne.
Qed.

Lemma replace_outcome_witness :
  stored st_empty_doc "e" = Some [] ∧
  heap st_empty_doc !! 0 = Some [("a", VInt 1)] ∧
  doc_wf [("a", VInt 1)] ∧
  (∀ p v, (p, v) ∈ [("a", VInt 1)] → hashable v = true) ∧
  ∃ st', SimpleDB.replace "e" 0 [] st_empty_doc = (Ret tt, st') ∧
         stored st' "e" = Some [("a", VInt 1)] ∧
         size (el_db st') = size (el_db st_empty_doc) ∧
         (∀ j, j ≠ "e" → stored st' j = stored st_empty_doc j).
Proof.
  assert (Hs : stored st_empty_doc "e" = Some []) by (vm_compute; reflexivity).
  assert (Hel : heap st_empty_doc !! 0 = Some [("a", VInt 1)]) by (vm_compute; reflexivity).
  assert (Hwf : doc_wf [("a", VInt 1)]).
  { apply (bool_decide_unpack _). vm_compute. exact I. }
  assert (Hh : ∀ p v, (p, v) ∈ [("a", VInt 1)] → hashable v = true).
  { apply all_hashable_elem. reflexivity. }
  split_and!; [exact Hs | exact Hel | exact Hwf | exact Hh |].
  exact (proj2 (proj2 (replace_outcome st_empty_doc "e" 0 [])) _ Hs Hel Hwf Hh).
Defined.

(** ** reset *)

(** X16.  [reset] starts afresh whatever the store was: the table is empty,
    and a sequence of calls that return normally and create leaves a sound
    and complete index with nothing empty in it, as from a new store. *)
Theorem reset_starts_afresh st ops :
  heap_wf (heap st) → orderly ops (SimpleDB.reset st).2 →
  (SimpleDB.size (SimpleDB.reset st).2).1 = Ret 0 ∧
  index_sound (run ops (SimpleDB.reset st).2) ∧
  index_complete (excluded ops ∅) (run ops (SimpleDB.reset st).2) ∧
  no_empty (run ops (SimpleDB.reset st).2).
Proof.
  intros Hwf Hord. split; [done|].
  destruct (consistent_run ops (SimpleDB.reset st).2 ∅) as (_ & Hs & Hc & Hne);
    [|done|done].
  split_and!; [done | | | ].
  - intros q w i Hi. by apply not_elem_of_empty in Hi.
  - intros j d q w Hd. unfold stored in Hd. simpl in Hd.
    by rewrite lookup_empty in Hd.
  - intros q pm Hq. simpl in Hq. by rewrite lookup_empty in Hq.
Qed.

Lemma reset_starts_afresh_witness :
  heap_wf (heap st_stale) ∧
  orderly [Add 0 [] "k"] (SimpleDB.reset st_stale).2 ∧
  ¬ index_sound st_stale ∧
  index_sound (run [Add 0 [] "k"] (SimpleDB.reset st_stale).2).
Proof.
  assert (Hwf : heap_wf (heap st_stale)).
  { apply (bool_decide_unpack _). vm_compute. exact I. }
  assert (Hord : orderly [Add 0 [] "k"] (SimpleDB.reset st_stale).2).
  { simpl. split_and!; try exact I; vm_compute; reflexivity. }
  split_and!; [exact Hwf | exact Hord | |].
  - intros Hs. destruct (Hs "a" (VInt 1) "i") as (d & Hd & Hg).
    + vm_compute. reflexivity.
    + vm_compute in Hd. injection Hd as <-. vm_compute in Hg. discriminate.
  - exact (proj1 (proj2 (reset_starts_afresh st_stale [Add 0 [] "k"] Hwf Hord))).
Defined.

(** ** What no call does *)

Section more_growth.
Implicit Types (st : state) (p q : prop) (v w val : value) (i j : ident).
Implicit Types (exclude : list prop).

Lemma ids_at_index_add_subseteq (idx : gmap prop (gmap value (gset ident))) p v i q w :
  ids_at idx q w ⊆ ids_at (SimpleDB.index_add p v i idx) q w.
Proof.
  rewrite ids_at_index_add. case_decide as Hpv; [|done].
  destruct Hpv as [-> ->]. apply union_subseteq_l.
Qed.

Lemma set_prop_filed_subseteq st (id_ : ident) p val (flag : bool) q w :
  filed st q w ⊆ filed (SimpleDB.set_prop id_ p val flag st).2 q w.
Proof.
  unfold SimpleDB.set_prop.
  destruct (el_db st !! id_) as [l|]; [|done].
  destruct (negb _); [done|].
  destruct (heap st !! l) as [d|]; [|done].
  destruct flag; [done|]. destruct (hashable val).
  - apply ids_at_index_add_subseteq.
  - unfold filed. simpl. by rewrite ids_at_ensure_map.
Qed.

Lemma add_loop_filed_subseteq st (id_ : ident) exclude (its : list (prop * value)) q w :
  filed st q w ⊆
  filed (for_each (λ '(p, val), SimpleDB.set_prop id_ p val (bool_decide (p ∈ exclude)))
           its st).2 q w.
Proof.
  revert st. induction its as [|[p v] its IH]; intros st; [done|].
  simpl. unfold bind at 1.
  pose proof (set_prop_filed_subseteq st id_ p v (bool_decide (p ∈ exclude)) q w) as Hsp.
  destruct (SimpleDB.set_prop id_ p v (bool_decide (p ∈ exclude)) st) as [[[]|e] st1];
    [|done]. simpl in Hsp. etrans; [exact Hsp | apply IH].
Qed.

Lemma exec_filed_subseteq o st q w : filed st q w ⊆ filed (exec o st).2 q w.
Proof.
  destruct o as [el exclude id_|id_|id_ p val flag|id_ p]; simpl.
  - unfold bind, SimpleDB.add.
    destruct (heap st !! el) as [d|]; [|done].
    destruct (negb _); [done|].
    unfold bind at 1. simpl. unfold bind at 1.
    pose proof (add_loop_filed_subseteq (set_el_db (<[id_ := el]> (el_db st)) st)
                  id_ exclude d q w) as Hloop.
    by destruct (for_each _ d _) as [[[]|e] st1].
  - unfold filed. by rewrite remove_prop_db.
  - apply set_prop_filed_subseteq.
  - unfold filed. by rewrite remove_prop_prop_db.
Qed.
End more_growth.

(** X17.  No call of [add], [remove], [set_prop] or [remove_prop] ever takes
    an identifier out of the index, whether it returns or raises: after any
    sequence of calls every set of the index holds what it held before. *)
Theorem index_never_shrinks ops st (p : prop) (v : value) :
  filed st p v ⊆ filed (run ops st) p v.
Proof.
  revert st. induction ops as [|o ops IH]; intros st; [done|].
  unfold run in *. simpl. etrans; [apply exec_filed_subseteq | apply IH].
Qed.

(** ** db.py: add *)

Section more_DB_add.
Implicit Types (st : state) (p q : prop) (v w val : value) (i j : ident).
Implicit Types (exclude : list prop).

Lemma DB_add_check_verdict exclude (d : doc) :
  DB.add_check exclude d = if type_checked exclude d then Ret tt else Raise TypeError.
Proof.
  unfold type_checked. induction d as [|[p v] d IH]; simpl; [done|].
  case_bool_decide; simpl; [done|].
  destruct (hashable_type v); simpl; done.
Qed.

Lemma type_checked_true exclude (d : doc) :
  type_checked exclude d = true ↔
  (∀ p v, (p, v) ∈ d → p ∉ exclude → hashable_type v = true).
Proof.
  unfold type_checked. induction d as [|[q w] d IH]; simpl.
  - split; [by intros _ p v ?%elem_of_nil | done].
  - rewrite andb_true_iff, orb_true_iff, bool_decide_eq_true, IH. split.
    + intros [Hq Hall] p v [[= -> ->]|Hin]%elem_of_cons Hp; [|by apply (Hall p)].
      by destruct Hq.
    + intros Hall. split.
      * destruct (decide (q ∈ exclude)); [by left | right; apply (Hall q); [left|done]].
      * intros p v Hin. apply Hall. by right.
Qed.

Lemma type_checked_false exclude (d : doc) :
  type_checked exclude d = false ↔
  (∃ p v, (p, v) ∈ d ∧ (p ∉ exclude) ∧ hashable_type v = false).
Proof.
  unfold type_checked. induction d as [|[q w] d IH]; simpl.
  - split; [done | by intros (? & ? & ?%elem_of_nil & _)].
  - rewrite andb_false_iff, orb_false_iff, bool_decide_eq_false, IH. split.
    + intros [[Hq Hw]|(p & v & Hin & Hp & Hv)].
      * exists q, w. split_and!; [left | done | done].
      * exists p, v. split_and!; [by right | done | done].
    + intros (p & v & [[= -> ->]|Hin]%elem_of_cons & Hp & Hv).
      * by left.
      * right. by exists p, v.
Qed.

(** A round of the second loop on an item that is excluded or can be
    hashed does what the last three statements of [set_prop] do. *)
Lemma DB_add_item_index_add exclude (_id : ident) p val st :
  (p ∉ exclude → hashable val = true) →
  DB.add_item exclude _id (p, val) st =
  (Ret tt, if bool_decide (p ∈ exclude) then st
           else set_prop_db (SimpleDB.index_add p val _id (prop_db st)) st).
Proof.
  intros Hh. unfold DB.add_item. case_bool_decide; [done|].
  rewrite Hh by done. simpl.
  f_equal. f_equal. rewrite index_add_insert. unfold ids_at, SimpleDB.ensure_map.
  destruct (prop_db st !! p) as [pm|] eqn:Hp; simpl.
  - rewrite Hp. simpl. destruct (pm !! val); simpl; [done|].
    by rewrite (left_id_L ∅ (∪)).
  - rewrite lookup_insert_eq. simpl. rewrite lookup_empty. simpl.
    by rewrite insert_insert_eq, (left_id_L ∅ (∪)).
Qed.

Lemma DB_add_item_unhashable exclude (_id : ident) p val st :
  p ∉ exclude → hashable val = false →
  DB.add_item exclude _id (p, val) st =
  (Raise TypeError, set_prop_db (SimpleDB.ensure_map p (prop_db st)) st).
Proof.
  intros Hp Hh. unfold DB.add_item.
  rewrite bool_decide_eq_false_2 by done. by rewrite Hh.
Qed.

Lemma DB_add_loop exclude (_id : ident) (its : doc) st :
  (∀ p v, (p, v) ∈ its → p ∉ exclude → hashable v = true) →
  for_each (DB.add_item exclude _id) its st =
  (Ret tt, set_prop_db (index_items exclude _id its (prop_db st)) st).
Proof.
  revert st. induction its as [|[p v] its IH]; intros st Hits.
  - by destruct st.
  - cbn [for_each]. unfold bind at 1.
    rewrite DB_add_item_index_add by (apply Hits; left).
    rewrite IH by (intros q w Hin; apply Hits; by right).
    unfold index_items. simpl. by case_bool_decide.
Qed.

Lemma DB_add_loop_stops exclude (_id : ident) (pre : doc) p v (post : doc) st :
  (∀ q w, (q, w) ∈ pre → q ∉ exclude → hashable w = true) →
  p ∉ exclude → hashable v = false →
  for_each (DB.add_item exclude _id) (pre ++ (p, v) :: post) st =
  (Raise TypeError,
   set_prop_db (SimpleDB.ensure_map p (index_items exclude _id pre (prop_db st))) st).
Proof.
  revert st. induction pre as [|[q w] pre IH]; intros st Hpre Hp Hh.
  - cbn [app for_each]. unfold bind at 1. by rewrite DB_add_item_unhashable.
  - cbn [app for_each]. unfold bind at 1.
    rewrite DB_add_item_index_add by (apply Hpre; left).
    rewrite IH; [| intros q' w' Hin; apply Hpre; by right | done | done].
    unfold index_items. simpl. by case_bool_decide.
Qed.

Lemma DB_add_returns st el exclude (_id : ident) (d : doc) :
  heap st !! el = Some d →
  (∀ p v, (p, v) ∈ d → p ∉ exclude → hashable v = true) →
  DB.add el exclude _id st = (Ret _id, added st el exclude _id d).
Proof.
  intros Hel Hd. unfold DB.add. rewrite Hel, DB_add_check_passes.
  2:{ intros p v Hin Hp. by apply hashable_type_of, (Hd p). }
  unfold bind at 1. simpl. unfold bind at 1. by rewrite DB_add_loop.
Qed.

Lemma DB_add_stops st el exclude (_id : ident) (d pre : doc) p v (post : doc) :
  heap st !! el = Some d → d = pre ++ (p, v) :: post →
  (∀ q w, (q, w) ∈ d → q ∉ exclude → hashable_type w = true) →
  (∀ q w, (q, w) ∈ pre → q ∉ exclude → hashable w = true) →
  p ∉ exclude → hashable v = false →
  DB.add el exclude _id st =
  (Raise TypeError,
   State (heap st) (<[_id := el]> (el_db st))
         (SimpleDB.ensure_map p (index_items exclude _id pre (prop_db st))) (fname st)).
Proof.
  intros Hel Hd Hty Hpre Hp Hh. unfold DB.add.
  rewrite Hel, DB_add_check_passes by done.
  unfold bind at 1. simpl. unfold bind at 1.
  rewrite Hd. by rewrite DB_add_loop_stops.
Qed.

Lemma consistent_added st ex el exclude (id_ : ident) (d : doc) :
  consistent ex st → el_db st !! id_ = None → heap st !! el = Some d →
  consistent (excl_add exclude id_ ex) (added st el exclude id_ d).
Proof.
  intros (Hwf & Hs & Hc & Hne) Hfresh Hel.
  split_and!.
  - done.
  - intros q w i [Hi|(-> & Hin & Hq)]%filed_added.
    + destruct (Hs q w i Hi) as (d' & Hd' & Hg). exists d'.
      rewrite stored_added by done.
      rewrite decide_False; [done|]. intros ->.
      apply stored_Some in Hd' as (l & Hl & _). congruence.
    + exists d. rewrite stored_added, decide_True by done.
      split; [done|]. apply doc_get_of_elem; [by apply (Hwf el)|done].
  - intros j d' q w. rewrite stored_added by done.
    rewrite elem_of_excl_add, filed_added.
    destruct (decide (j = id_)) as [->|Hj].
    + intros [= <-] Hg Hex. right. split_and!; [done | by apply doc_get_elem |].
      intros Hq. apply Hex. by right.
    + intros Hd' Hg Hex. left. apply (Hc j d' q w); [done..|].
      intros Hin. apply Hex. by left.
  - by apply no_empty_index_items.
Qed.

Lemma consistent_skipped st ex exclude (id_ : ident) :
  consistent ex st → el_db st !! id_ = None →
  consistent (excl_add exclude id_ ex) st.
Proof.
  intros (Hwf & Hs & Hc & Hne) Hfresh. split_and!; [done | done | | done].
  intros j d q w Hd Hg Hex. apply (Hc j d q w); [done..|].
  intros Hin. apply Hex. apply elem_of_excl_add. left. split; [|done].
  intros ->. apply stored_Some in Hd as (l & Hl & _). congruence.
Qed.

Lemma DB_add_heap st el exclude (_id : ident) :
  heap (DB.add el exclude _id st).2 = heap st.
Proof.
  unfold DB.add. destruct (heap st !! el) as [d|]; [|done].
  destruct (DB.add_check exclude d); [|done].
  unfold bind at 1. simpl. unfold bind at 1.
  assert (Hloop : ∀ its st0, heap (for_each (DB.add_item exclude _id) its st0).2 = heap st0).
  { induction its as [|[p v] its IH]; intros st0; [done|].
    cbn [for_each]. unfold bind at 1. unfold DB.add_item at 1.
    case_bool_decide; [apply IH|].
    destruct (negb (hashable v)); [done|]. by rewrite IH. }
  specialize (Hloop d (set_el_db (<[_id := el]> (el_db st)) st)).
  by destruct (for_each _ d _) as [[[]|e] st1].
Qed.

Lemma DB_run_adds_consistent calls st ex :
  consistent ex st → NoDup calls.*2 → (∀ c, c ∈ calls → el_db st !! c.2 = None) →
  (∀ el exclude (_id : ident) d p v,
     (el, exclude, _id) ∈ calls → heap st !! el = Some d → (p, v) ∈ d →
     p ∉ exclude → hashable_type v = true → hashable v = true) →
  consistent (excluded (add_calls calls) ex) (DB_run_adds calls st).
Proof.
  revert st ex. induction calls as [|[[el exclude] id_] calls IH];
    intros st ex Hc Hnd Hfresh Hval; [done|].
  csimpl in *. apply NoDup_cons in Hnd as [Hid Hnd].
  assert (Hid0 : el_db st !! id_ = None) by (apply (Hfresh (el, exclude, id_)); left).
  assert (Hrest : ∀ st1, heap st1 = heap st →
            ∀ el' exclude' (_id : ident) d p v,
              (el', exclude', _id) ∈ calls → heap st1 !! el' = Some d → (p, v) ∈ d →
              p ∉ exclude' → hashable_type v = true → hashable v = true).
  { intros st1 Hh el' exclude' _id d p v Hin. rewrite Hh.
    apply (Hval el' exclude' _id). by right. }
  unfold DB_run_adds in *. simpl.
  destruct (heap st !! el) as [d|] eqn:Hel.
  - destruct (type_checked exclude d) eqn:Htc.
    + rewrite (DB_add_returns st el exclude id_ d Hel).
      2:{ intros p v Hin Hp. apply (Hval el exclude id_ d p v); [left | done..|].
          by apply (proj1 (type_checked_true exclude d) Htc p v). }
      simpl. apply IH; [by apply consistent_added | done | | by apply Hrest].
      intros [[el' ex'] j] Hin. simpl. rewrite lookup_insert_ne.
      * apply (Hfresh (el', ex', j)). by right.
      * intros ->. apply Hid. apply list_elem_of_fmap. by exists (el', ex', j).
    + apply type_checked_false in Htc as (p & v & Hin & Hp & Ht).
      rewrite (DB_add_rejects st el exclude id_ d p v) by done. simpl.
      apply IH; [by apply consistent_skipped | done | | by apply Hrest].
      intros c Hin'. apply Hfresh. by right.
  - unfold DB.add at 2. rewrite Hel. simpl.
    apply IH; [by apply consistent_skipped | done | | by apply Hrest].
    intros c Hin. apply Hfresh. by right.
Qed.
End more_DB_add.

(** X18.  [DB.add] in full.  When some property outside the exclusion list
    has a value that fails the type test (a list), the call raises
    [TypeError] and the store is as before.  When every value outside the
    exclusion list can be hashed, the call returns the identifier, the
    document enters the table, and the index gains the identifier under
    every pair whose property is not excluded; the values of excluded
    properties are not looked at.  Otherwise every value outside the
    exclusion list passes the type test and one of them cannot be hashed (a
    tuple that holds a list): the document enters the table, the pairs
    before the first such value are filed, the index holds a map for the
    property of that value, an empty one if it held none, and the call
    raises [TypeError]. *)
Theorem DB_add_outcome st el (exclude : list prop) (_id : ident) (d : doc) :
  heap st !! el = Some d →
  ((∃ p v, (p, v) ∈ d ∧ (p ∉ exclude) ∧ hashable_type v = false) →
     DB.add el exclude _id st = (Raise TypeError, st)) ∧
  ((∀ p v, (p, v) ∈ d → p ∉ exclude → hashable v = true) →
     DB.add el exclude _id st = (Ret _id, added st el exclude _id d)) ∧
  (∀ pre p v post, d = pre ++ (p, v) :: post →
     (∀ q w, (q, w) ∈ d → q ∉ exclude → hashable_type w = true) →
     (∀ q w, (q, w) ∈ pre → q ∉ exclude → hashable w = true) →
     p ∉ exclude → hashable v = false →
     DB.add el exclude _id st =
     (Raise TypeError,
      State (heap st) (<[_id := el]> (el_db st))
            (SimpleDB.ensure_map p (index_items exclude _id pre (prop_db st)))
            (fname st))).
Proof.
  intros Hel. split_and!.
  - intros (p & v & Hin & Hp & Ht). by apply (DB_add_rejects st el exclude _id d p v).
  - by apply DB_add_returns.
  - intros pre p v post. by apply DB_add_stops.
Qed.

Lemma DB_add_outcome_witness :
  heap (init heap_secret) !! 0 = Some [("secret", VList [1; 2; 3]%Z)] ∧
  (∀ p v, (p, v) ∈ [("secret", VList [1; 2; 3]%Z)] → p ∉ ["secret"] → hashable v = true) ∧
  DB.add 0 ["secret"] "i" (init heap_secret) =
    (Ret "i", added (init heap_secret) 0 ["secret"] "i" [("secret", VList [1; 2; 3]%Z)]) ∧
  stored (DB.add 0 ["secret"] "i" (init heap_secret)).2 "i" =
    Some [("secret", VList [1; 2; 3]%Z)] ∧
  prop_db (DB.add 0 ["secret"] "i" (init heap_secret)).2 = ∅.
Proof.
  assert (Hd : ∀ p v, (p, v) ∈ [("secret", VList [1; 2; 3]%Z)] → p ∉ ["secret"] →
                      hashable v = true).
  { intros p v [= -> ->]%list_elem_of_singleton Hp. exfalso. apply Hp. left. }
  split_and!; [reflexivity | exact Hd | | vm_compute; reflexivity..].
  exact (proj1 (proj2 (DB_add_outcome (init heap_secret) 0 ["secret"] "i"
                         [("secret", VList [1; 2; 3]%Z)] eq_refl)) Hd).
Defined.

(** The third case on [{"a": 1, "t": (1, [2])}]: the document is stored,
    ["a"] is filed, and the call raises with an empty map for ["t"]. *)
Example DB_add_leaves_empty_map :
  DB.add 0 [] "i" (init heap_tuple) =
    (Raise TypeError,
     State heap_tuple {[ "i" := 0 ]}
           {[ "a" := {[ VInt 1 := {[ "i" ]} ]}; "t" := ∅ ]} None) ∧
  ¬ no_empty (DB.add 0 [] "i" (init heap_tuple)).2.
Proof.
  split; [vm_compute; reflexivity|].
  intros Hne. destruct (Hne "t" ∅) as [Hn _]; [vm_compute; reflexivity | done].
Qed.

(** X19.  Whenever [SimpleDB.add] returns, [DB.add] on the same arguments
    returns the same identifier and leaves the same store: the later class
    accepts no document that the earlier one rejects. *)
Theorem DB_add_agrees st st' el (exclude : list prop) (id_ r : ident) :
  heap_wf (heap st) →
  SimpleDB.add el exclude id_ st = (Ret r, st') →
  DB.add el exclude id_ st = (Ret r, st').
Proof.
  intros Hwf (d & Hel & -> & -> & Hh)%add_ret; [|done].
  apply DB_add_returns; [done|].
  intros p v Hin Hp.
  by apply (proj2 (proj1 (item_passes_spec exclude p v) (Hh p v Hin))).
Qed.

Lemma DB_add_agrees_witness :
  heap_wf (heap (init heap_people)) ∧
  SimpleDB.add 0 ["name"] "i" (init heap_people) =
    (Ret "i", (SimpleDB.add 0 ["name"] "i" (init heap_people)).2) ∧
  DB.add 0 ["name"] "i" (init heap_people) =
    (Ret "i", (SimpleDB.add 0 ["name"] "i" (init heap_people)).2).
Proof.
  assert (Hadd : SimpleDB.add 0 ["name"] "i" (init heap_people) =
                 (Ret "i", (SimpleDB.add 0 ["name"] "i" (init heap_people)).2))
    by (vm_compute; reflexivity).
  split_and!; [apply heap_people_wf | exact Hadd |].
  exact (DB_add_agrees (init heap_people) _ 0 ["name"] "i" "i" heap_people_wf Hadd).
Defined.

(** X20.  Calls of [DB.add], each in its own [try], keep the index
    consistent whether they return or raise, as long as no value outside
    the exclusion lists passes the type test without being hashable (no
    tuple that holds a list): after any such sequence of calls under
    pairwise distinct identifiers, on dicts with distinct keys, every
    identifier filed under a pair names a document that has it, every pair
    of a stored document whose property was not excluded is filed, and the
    index holds nothing empty. *)
Theorem DB_adds_consistent h (calls : list (loc * list prop * ident)) :
  heap_wf h → NoDup calls.*2 →
  (∀ el exclude (_id : ident) d p v,
     (el, exclude, _id) ∈ calls → h !! el = Some d → (p, v) ∈ d →
     p ∉ exclude → hashable_type v = true → hashable v = true) →
  index_sound (DB_run_adds calls (init h)) ∧
  index_complete (excluded (add_calls calls) ∅) (DB_run_adds calls (init h)) ∧
  no_empty (DB_run_adds calls (init h)).
Proof.
  intros Hwf Hnd Hval.
  destruct (DB_run_adds_consistent calls (init h) ∅) as (_ & Hs & Hc & Hne);
    [by apply consistent_init | done | | done | done].
  intros c _. apply lookup_empty.
Qed.

Lemma DB_adds_consistent_witness :
  heap_wf heap_mixed ∧
  NoDup [(0, [], "i1"); (0, ["a"], "i2")].*2 ∧
  (∀ el exclude (_id : ident) d p v,
     (el, exclude, _id) ∈ [(0, [], "i1"); (0, ["a"], "i2")] →
     heap_mixed !! el = Some d → (p, v) ∈ d →
     p ∉ exclude → hashable_type v = true → hashable v = true) ∧
  DB_run_adds [(0, [], "i1"); (0, ["a"], "i2")] (init heap_mixed) =
    State heap_mixed {[ "i2" := 0 ]} {[ "b" := {[ VInt 1 := {[ "i2" ]} ]} ]} None ∧
  index_sound (DB_run_adds [(0, [], "i1"); (0, ["a"], "i2")] (init heap_mixed)) ∧
  index_complete (excluded (add_calls [(0, [], "i1"); (0, ["a"], "i2")]) ∅)
    (DB_run_adds [(0, [], "i1"); (0, ["a"], "i2")] (init heap_mixed)) ∧
  no_empty (DB_run_adds [(0, [], "i1"); (0, ["a"], "i2")] (init heap_mixed)).
Proof.
  assert (Hwf : heap_wf heap_mixed).
  { apply (bool_decide_unpack _). vm_compute. exact I. }
  assert (Hnd : NoDup [(0, ([] : list string), "i1"); (0, ["a"], "i2")].*2).
  { apply (bool_decide_unpack _). vm_compute. exact I. }
  assert (Hval : ∀ el exclude (_id : ident) d p v,
     (el, exclude, _id) ∈ [(0, ([] : list string), "i1"); (0, ["a"], "i2")] →
     heap_mixed !! el = Some d → (p, v) ∈ d →
     p ∉ exclude → hashable_type v = true → hashable v = true).
  { intros el exclude _id d p v Hc Hd Hin _ Ht.
    assert (Hel : el = 0).
    { apply elem_of_cons in Hc as [[= -> _ _]|Hc]; [done|].
      apply elem_of_cons in Hc as [[= -> _ _]|Hc]; [done|]. by apply elem_of_nil in Hc. }
    subst el. vm_compute in Hd. injection Hd as <-.
    apply elem_of_cons in Hin as [[= -> ->]|Hin]; [done|].
    apply elem_of_cons in Hin as [[= -> ->]|Hin]; [done|]. by apply elem_of_nil in Hin. }
  split_and!; [exact Hwf | exact Hnd | exact Hval | vm_compute; reflexivity | ..];
    apply (DB_adds_consistent heap_mixed [(0, [], "i1"); (0, ["a"], "i2")] Hwf Hnd Hval).
Defined.

(** ** db.py: remove *)

Section more_DB_remove.
Implicit Types (st : state) (p q : prop) (v w val : value) (i j : ident).
Implicit Types (idx : gmap prop (gmap value (gset ident))).

(** One round of the loop of [DB.remove] when another identifier is filed
    under the property: the identifier leaves its set, an emptied set is
    pruned, and the property map stays. *)
Lemma DB_remove_item_shared st (_id : ident) p v :
  hashable v = true → _id ∈ filed st p v →
  (∃ w j, j ≠ _id ∧ j ∈ filed st p w) →
  ∃ st', DB.remove_item _id (p, v) st = (Ret tt, st') ∧
    heap st' = heap st ∧ el_db st' = el_db st ∧ fname st' = fname st ∧
    (∀ q w, filed st' q w =
            if decide (q = p ∧ w = v) then filed st q w ∖ {[_id]} else filed st q w) ∧
    (no_empty st → no_empty st').
Proof.
  intros Hh Hin (w0 & j & Hj & Hjin).
  apply elem_of_ids_at in Hin as (pm & ids & Hp & Hv & Hin).
  apply elem_of_ids_at in Hjin as (pm' & ids0 & Hp' & Hw0 & Hjin).
  rewrite Hp in Hp'. injection Hp' as <-.
  set (ids1 := ids ∖ {[_id]}).
  set (pm1 := if decide (size ids1 = 0) then delete v pm else <[v := ids1]> pm).
  assert (Hlook : ∀ w, default ∅ (pm1 !! w) =
                       if decide (w = v) then ids1 else default ∅ (pm !! w)).
  { intros w. unfold pm1. destruct (decide (size ids1 = 0)) as [Hz|Hz].
    - rewrite lookup_delete. destruct (decide (v = w)) as [->|Hvw].
      + rewrite decide_True by done. simpl. symmetry.
        apply leibniz_equiv. by apply size_empty_iff.
      + by rewrite decide_False by congruence.
    - rewrite lookup_insert. destruct (decide (v = w)) as [->|Hvw].
      + by rewrite decide_True.
      + by rewrite decide_False by congruence. }
  assert (Hj1 : j ∈ default ∅ (pm1 !! w0)).
  { rewrite Hlook. case_decide as Hwv.
    - subst w0. rewrite Hv in Hw0. injection Hw0 as <-.
      apply elem_of_difference. split; [done|]. by rewrite elem_of_singleton.
    - by rewrite Hw0. }
  assert (Hpm1 : size pm1 ≠ 0).
  { intros Hz%map_size_empty_iff. rewrite Hz, lookup_empty in Hj1.
    by apply not_elem_of_empty in Hj1. }
  exists (set_prop_db (<[p := pm1]> (prop_db st)) st). split_and!; try done.
  - unfold DB.remove_item. rewrite Hp, Hh. simpl. rewrite Hv.
    rewrite decide_True by done. fold ids1. fold pm1.
    by rewrite decide_False by done.
  - intros q w. unfold filed. simpl. rewrite ids_at_insert.
    destruct (decide (p = q)) as [<-|Hpq].
    + rewrite Hlook. destruct (decide (w = v)) as [->|Hwv].
      * rewrite decide_True by done. unfold ids_at. rewrite Hp. simpl. by rewrite Hv.
      * rewrite decide_False by (by intros [_ ?]). unfold ids_at. by rewrite Hp.
    + by rewrite decide_False by (intros [? _]; congruence).
  - intros Hne q pmq. simpl. rewrite lookup_insert. case_decide as Hpq.
    + intros [= <-]. split.
      * intros Hz. apply Hpm1. rewrite Hz. apply map_size_empty.
      * intros w s Hs. unfold pm1 in Hs.
        destruct (decide (size ids1 = 0)) as [Hz|Hz].
        -- apply lookup_delete_Some in Hs as [_ Hs]. subst q.
           by apply (proj2 (Hne p pm Hp) w).
        -- apply lookup_insert_Some in Hs as [[_ <-]|[_ Hs]].
           ++ intros He. apply Hz. rewrite He. apply size_empty.
           ++ subst q. by apply (proj2 (Hne p pm Hp) w).
    + apply Hne.
Qed.

(** The loop of [DB.remove] over items with distinct keys, each one filed
    and shared. *)
Lemma DB_remove_loop_shared (_id : ident) (its : list (prop * value)) st :
  NoDup its.*1 →
  (∀ p v, (p, v) ∈ its →
     hashable v = true ∧ _id ∈ filed st p v ∧ ∃ w j, j ≠ _id ∧ j ∈ filed st p w) →
  ∃ st', for_each (DB.remove_item _id) its st = (Ret tt, st') ∧
    heap st' = heap st ∧ el_db st' = el_db st ∧ fname st' = fname st ∧
    (∀ q w, filed st' q w =
            if decide ((q, w) ∈ its) then filed st q w ∖ {[_id]} else filed st q w) ∧
    (no_empty st → no_empty st').
Proof.
  revert st. induction its as [|[p v] its IH]; intros st Hnd Hits.
  - exists st. split_and!; done.
  - csimpl in Hnd. apply NoDup_cons in Hnd as [Hp Hnd].
    destruct (Hits p v) as (Hh & Hin & Hother); [left|].
    destruct (DB_remove_item_shared st _id p v Hh Hin Hother)
      as (st1 & Hround & Hheap1 & Hel1 & Hf1 & Hfiled1 & Hne1).
    assert (Hkeep : ∀ q w, q ≠ p → filed st1 q w = filed st q w).
    { intros q w Hq. rewrite Hfiled1. by rewrite decide_False by (by intros [? _]). }
    destruct (IH st1 Hnd) as (st' & Hloop & Hheap & Hel & Hf & Hfiled & Hne).
    { intros q w Hqw.
      assert (Hq : q ≠ p).
      { intros ->. apply Hp. apply list_elem_of_fmap. by exists (p, w). }
      destruct (Hits q w) as (Hh' & Hin' & (w1 & j & Hj & Hjin)); [by right|].
      split_and!; [done | by rewrite Hkeep |].
      exists w1, j. split; [done|]. by rewrite Hkeep. }
    exists st'. split_and!.
    + cbn [for_each]. unfold bind at 1. by rewrite Hround.
    + congruence.
    + congruence.
    + congruence.
    + intros q w. rewrite Hfiled, Hfiled1.
      destruct (decide (q = p ∧ w = v)) as [[-> ->]|Hne0].
      * rewrite decide_False.
        -- rewrite decide_True by left. done.
        -- intros Hin'. apply Hp. apply list_elem_of_fmap. by exists (p, v).
      * destruct (decide ((q, w) ∈ its)) as [Hin'|Hnin].
        -- rewrite decide_True by (by right). done.
        -- rewrite decide_False; [done|].
           intros [[= -> ->]|?]%elem_of_cons; [by apply Hne0 | done].
    + intros H. by apply Hne, Hne1.
Qed.
End more_DB_remove.

(** X21.  [DB.remove] does its work when every property of the document is
    filed, with a hashable value, and is shared with another identifier: the
    call returns, the document leaves the table, which loses one entry, the
    identifier leaves the set of every pair of the document, emptied sets
    are pruned so that the index holds nothing empty, and no other set
    changes. *)
Theorem DB_remove_shared st (_id : ident) (d : doc) :
  stored st _id = Some d → doc_wf d →
  (∀ p v, (p, v) ∈ d →
     hashable v = true ∧ _id ∈ filed st p v ∧ ∃ w j, j ≠ _id ∧ j ∈ filed st p w) →
  ∃ st',
    DB.remove _id st = (Ret tt, st') ∧
    el_db st' = delete _id (el_db st) ∧
    S (size (el_db st')) = size (el_db st) ∧
    heap st' = heap st ∧
    (∀ q w, filed st' q w =
            if decide ((q, w) ∈ d) then filed st q w ∖ {[_id]} else filed st q w) ∧
    (no_empty st → no_empty st').
Proof.
  intros (l & Hi & Hl)%stored_Some Hwf Hd.
  destruct (DB_remove_loop_shared _id d st Hwf Hd)
    as (st1 & Hloop & Hheap & Hel & Hf & Hfiled & Hne).
  exists (set_el_db (delete _id (el_db st1)) st1). split_and!.
  - unfold DB.remove. rewrite Hi, Hl. unfold bind. by rewrite Hloop.
  - simpl. by rewrite Hel.
  - simpl. rewrite Hel, map_size_delete, Hi.
    assert (size (el_db st) ≠ 0); [|lia].
    intros Hz%map_size_empty_iff. by rewrite Hz, lookup_empty in Hi.
  - done.
  - apply Hfiled.
  - apply Hne.
Qed.

Lemma DB_remove_shared_witness :
  stored st_both "i1" = Some [("name", VStr "a"); ("age", VInt 30)] ∧
  doc_wf [("name", VStr "a"); ("age", VInt 30)] ∧
  ∃ st',
    DB.remove "i1" st_both = (Ret tt, st') ∧
    el_db st' = delete "i1" (el_db st_both) ∧
    filed st' "age" (VInt 30) = filed st_both "age" (VInt 30) ∖ {[ "i1" ]} ∧
    filed st' "name" (VStr "b") = filed st_both "name" (VStr "b").
Proof.
  assert (Hs : stored st_both "i1" = Some [("name", VStr "a"); ("age", VInt 30)])
    by (vm_compute; reflexivity).
  assert (Hwf : doc_wf [("name", VStr "a"); ("age", VInt 30)]).
  { apply (bool_decide_unpack _). vm_compute. exact I. }
  assert (Hd : ∀ p v, (p, v) ∈ [("name", VStr "a"); ("age", VInt 30)] →
             hashable v = true ∧ "i1" ∈ filed st_both p v ∧
             ∃ w j, j ≠ "i1" ∧ j ∈ filed st_both p w).
  { intros p v Hin.
    apply elem_of_cons in Hin as [[= -> ->]|Hin];
      [|apply elem_of_cons in Hin as [[= -> ->]|Hin]; [|by apply elem_of_nil in Hin]].
    - split_and!; [reflexivity | vm_compute; reflexivity |].
      exists (VStr "b"), "i2". split; [discriminate | vm_compute; reflexivity].
    - split_and!; [reflexivity | vm_compute; reflexivity |].
      exists (VInt 30), "i2". split; [discriminate | vm_compute; reflexivity]. }
  split_and!; [exact Hs | exact Hwf |].
  destruct (DB_remove_shared st_both "i1" _ Hs Hwf Hd)
    as (st' & Hrm & Hel & _ & _ & Hfiled & _).
  exists st'. split_and!; [exact Hrm | exact Hel | |].
  - rewrite Hfiled. rewrite decide_True; [done|]. right. left.
  - rewrite Hfiled. rewrite decide_False; [done|].
    intros Hin. apply elem_of_cons in Hin as [[=]|Hin];
      apply elem_of_cons in Hin as [[=]|Hin]; by apply elem_of_nil in Hin.
Defined.

(** X22.  [DB.remove] stops on the first property of the document that no
    other identifier shares: the set and the value entry are pruned, the
    next statement raises [NameError], and the call leaves an empty property
    map in the index and the document in the table. *)
Theorem DB_remove_only_holder st (_id : ident) (p : prop) (v : value)
    (d' : list (prop * value)) :
  stored st _id = Some ((p, v) :: d') → hashable v = true →
  prop_db st !! p = Some {[ v := {[ _id ]} ]} →
  DB.remove _id st = (Raise NameError, set_prop_db (<[p := ∅]> (prop_db st)) st) ∧
  stored (DB.remove _id st).2 _id = Some ((p, v) :: d') ∧
  ¬ no_empty (DB.remove _id st).2.
Proof.
  intros (l & Hi & Hl)%stored_Some Hh Hp.
  assert (Hrm : DB.remove _id st =
                (Raise NameError, set_prop_db (<[p := ∅]> (prop_db st)) st)).
  { unfold DB.remove. rewrite Hi, Hl. cbn [for_each]. unfold bind.
    unfold DB.remove_item. rewrite Hp, Hh. simpl. rewrite lookup_singleton_eq.
    rewrite decide_True by (by apply elem_of_singleton).
    rewrite difference_diag_L.
    rewrite (decide_True (P := size (∅ : gset ident) = 0)) by apply size_empty.
    rewrite delete_singleton_eq.
    by rewrite (decide_True (P := size (∅ : gmap value (gset ident)) = 0))
      by apply map_size_empty. }
  rewrite Hrm. simpl. split_and!; [done | |].
  - unfold stored. simpl. rewrite Hi. simpl. done.
  - intros Hne. destruct (Hne p ∅) as [Hz _]; [|done].
    simpl. by rewrite lookup_insert_eq.
Qed.

Lemma DB_remove_only_holder_witness :
  stored st_a1 "i" = Some [("a", VInt 1)] ∧ hashable (VInt 1) = true ∧
  prop_db st_a1 !! "a" = Some {[ VInt 1 := {[ "i" ]} ]} ∧
  DB.remove "i" st_a1 =
    (Raise NameError, set_prop_db (<[ "a" := ∅ ]> (prop_db st_a1)) st_a1).
Proof.
  assert (Hs : stored st_a1 "i" = Some [("a", VInt 1)]) by (vm_compute; reflexivity).
  assert (Hp : prop_db st_a1 !! "a" = Some {[ VInt 1 := {[ "i" ]} ]})
    by (vm_compute; reflexivity).
  split_and!; [exact Hs | reflexivity | exact Hp |].
  exact (proj1 (DB_remove_only_holder st_a1 "i" "a" (VInt 1) [] Hs eq_refl Hp)).
Defined.
